(** * PandasGUI: name resolution, window registry and store synchronisation

    A shallow embedding of [pandasgui/gui.py]: the positional-argument name
    resolution of [show], the [PandasGui] window (construction, theme switch,
    close, refresh) and the application store it drives. *)

From stdpp Require Import base numbers strings pretty option list.

(** ** Python objects and dictionaries *)

(** A Python object is known to this code only through its identity
    ([id(x)], compared by [is]); payloads are opaque references. *)
Abbreviation obj := nat (only parsing).

Definition py_is (a b : obj) : bool := bool_decide (a = b).

(** A [dict] keeps insertion order and unique keys: an association list
    driven only through [dict_set] / [dict_del]. *)
Abbreviation dict V := (list (string * V)) (only parsing).

Fixpoint dict_get {V} (k : string) (d : dict V) : option V :=
  match d with
  | [] => None
  | (k', v) :: d' => if decide (k' = k) then Some v else dict_get k d'
  end.

(** [d[k] = v]: an existing key keeps its place, a new key goes last. *)
Fixpoint dict_set {V} (k : string) (v : V) (d : dict V) : dict V :=
  match d with
  | [] => [(k, v)]
  | (k', v') :: d' =>
      if decide (k' = k) then (k, v) :: d' else (k', v') :: dict_set k v d'
  end.

Fixpoint dict_del {V} (k : string) (d : dict V) : dict V :=
  match d with
  | [] => []
  | (k', v') :: d' => if decide (k' = k) then d' else (k', v') :: dict_del k d'
  end.

Definition dict_keys {V} (d : dict V) : list string := d.*1.

Definition dict_contains {V} (k : string) (d : dict V) : bool :=
  bool_decide (k ∈ dict_keys d).

(** [{**d1, **d2}]: the items of [d2] are written over [d1] in order. *)
Definition dict_update {V} (d1 d2 : dict V) : dict V :=
  foldl (λ d kv, dict_set kv.1 kv.2 d) d1 d2.

(** The binding a sequence of writes leaves for [k]: the last one. *)
Fixpoint last_write {V} (k : string) (ws : list (string * V)) : option V :=
  match ws with
  | [] => None
  | (k', v) :: ws' =>
      match last_write k ws' with
      | Some v' => Some v'
      | None => if decide (k' = k) then Some v else None
      end
  end.

(** ** [show]: naming the positional arguments (gui.py 331-357) *)

(** [f"untitled_{untitled_number}"] *)
Definition untitled (untitled_number : nat) : string :=
  "untitled_" +:+ pretty untitled_number.

(** The inner loop over [callers_local_vars]: every binding whose value
    [is] the payload overwrites [df_name]; there is no [break]. *)
Definition scan_scope (callers_local_vars : dict obj) (df_object : obj)
  : option string :=
  foldl (λ df_name '(var_name, var_val),
           if py_is var_val df_object then Some var_name else df_name)
        None callers_local_vars.

(** The body of the outer loop up to the write into [dataframes]: the name
    given to [df_object] and the counter afterwards. *)
Definition choose_name (callers_local_vars : dict obj) (untitled_number : nat)
    (df_object : obj) : string * nat :=
  match scan_scope callers_local_vars df_object with
  | Some df_name => (df_name, untitled_number)
  | None => (untitled untitled_number, S untitled_number)
  end.

(** The outer loop, from a given [dataframes] and [untitled_number]. *)
Fixpoint resolve_loop (callers_local_vars : dict obj) (args : list obj)
    (dataframes : dict obj) (untitled_number : nat) : dict obj * nat :=
  match args with
  | [] => (dataframes, untitled_number)
  | df_object :: rest =>
      let '(df_name, n') :=
        choose_name callers_local_vars untitled_number df_object in
      resolve_loop callers_local_vars rest
        (dict_set df_name df_object dataframes) n'
  end.

(** The state of the outer loop of [show] when it reaches argument [j]:
    the mapping built from the arguments before it, and the counter. *)
Definition dataframes_at (callers_local_vars : dict obj) (args : list obj)
    (j : nat) : dict obj :=
  (resolve_loop callers_local_vars (take j args) [] 1).1.

Definition untitled_number_at (callers_local_vars : dict obj)
    (args : list obj) (j : nat) : nat :=
  (resolve_loop callers_local_vars (take j args) [] 1).2.

(** [df_name is None] after the scan: no variable is bound to the payload. *)
Definition unmatched (callers_local_vars : dict obj) (df_object : obj)
  : Prop :=
  scan_scope callers_local_vars df_object = None.

(** [dataframes] as [show] builds it: empty dict, counter at 1. *)
Definition show_dataframes (callers_local_vars : dict obj) (args : list obj)
  : dict obj :=
  (resolve_loop callers_local_vars args [] 1).1.

(** The successive values of [(df_name, df_object)] at the write
    [dataframes[df_name] = df_object], one per positional argument. *)
Fixpoint resolved (callers_local_vars : dict obj) (args : list obj)
    (untitled_number : nat) : list (string * obj) :=
  match args with
  | [] => []
  | df_object :: rest =>
      let '(df_name, n') :=
        choose_name callers_local_vars untitled_number df_object in
      (df_name, df_object) :: resolved callers_local_vars rest n'
  end.

Definition resolved_names (callers_local_vars : dict obj) (args : list obj)
  : list string :=
  (resolved callers_local_vars args 1).*1.

(** The names produced by the [if df_name is None] branch, in order. *)
Fixpoint synthesized (callers_local_vars : dict obj) (args : list obj)
    (untitled_number : nat) : list string :=
  match args with
  | [] => []
  | df_object :: rest =>
      match scan_scope callers_local_vars df_object with
      | Some _ => synthesized callers_local_vars rest untitled_number
      | None =>
          untitled untitled_number
            :: synthesized callers_local_vars rest (S untitled_number)
      end
  end.

Definition synthesized_names (callers_local_vars : dict obj)
    (args : list obj) : list string :=
  synthesized callers_local_vars args 1.

Definition duplicate_warning : string :=
  "Duplicate DataFrame names were provided, duplicates were ignored.".

(** What [show] hands to the window: the merged keyword dictionary, and
    what it sent to [logger.warning]. *)
Record show_result := ShowResult {
  show_kwargs : dict obj;
  show_log : list string
}.

Definition show (args : list obj) (callers_local_vars : dict obj)
    (kwargs : dict obj) : show_result :=
  let dataframes := show_dataframes callers_local_vars args in
  let log :=
    if existsb (λ key, bool_decide (key ∈ dict_keys kwargs))
               (dict_keys dataframes)
    then [duplicate_warning] else [] in
  {| show_kwargs := dict_update kwargs dataframes; show_log := log |}.

(** First binding of the scope whose value is the payload: what a scan
    that stopped at its first match would return. *)
Fixpoint first_match (callers_local_vars : dict obj) (df_object : obj)
  : option string :=
  match callers_local_vars with
  | [] => None
  | (var_name, var_val) :: rest =>
      if py_is var_val df_object then Some var_name
      else first_match rest df_object
  end.

(** The entries of a name-to-payload mapping that hold a given object. *)
Definition entries_for (o : obj) (d : dict obj) : dict obj :=
  filter (λ kv, kv.2 = o) d.

(** ** Calls that may raise *)

Inductive exn := NotFoundError | ValueError | KeyError.

Inductive result (A : Type) : Type :=
  | Ok (a : A)
  | Raise (e : exn).
Arguments Ok {A} a.
Arguments Raise {A} e.

(** ** The application store *)

(** Modelled from the spec: [pandasgui/store.py] ([PandasGuiStore],
    [add_dataframe], [remove_dataframe], the settings store) is not among
    the sources; the definitions of this part follow sections 3, 4.2 and 6
    of the specification. *)

(** Setting values are Python values; [block] is tested for truthiness. *)
Inductive pyval :=
  | VBool (b : bool)
  | VStr (s : string)
  | VInt (z : Z)
  | VNone.

#[global] Instance pyval_eq_dec : EqDecision pyval.
Proof. solve_decision. Defined.

Definition truthy (v : pyval) : bool :=
  match v with
  | VBool b => b
  | VStr s => negb (bool_decide (s = ""))
  | VInt z => negb (bool_decide (z = 0%Z))
  | VNone => false
  end.

(** Modelled from the spec: the settings surface of section 6, a flat
    mapping with at least [theme], [style] and [block]. *)
Record SettingsStore := mkSettings {
  block : pyval;
  theme : pyval;
  style : pyval;
  other_settings : dict pyval
}.

(** Modelled from the spec: [settings[key].value = value]; a key that is
    not an option of the store raises. *)
Definition settings_assign (key : string) (value : pyval) (st : SettingsStore)
  : result SettingsStore :=
  if decide (key = "block") then
    Ok (mkSettings value (theme st) (style st) (other_settings st))
  else if decide (key = "theme") then
    Ok (mkSettings (block st) value (style st) (other_settings st))
  else if decide (key = "style") then
    Ok (mkSettings (block st) (theme st) value (other_settings st))
  else if dict_contains key (other_settings st) then
    Ok (mkSettings (block st) (theme st) (style st)
          (dict_set key value (other_settings st)))
  else Raise KeyError.

(** Modelled from the spec: a Dataset Entry (section 3); its name is its
    key in [entries]. *)
Record Entry := mkEntry {
  data : obj;
  history : list string
}.

(** Modelled from the spec: the Application Store (section 3). *)
Record Store := mkStore {
  entries : dict Entry;
  selected_name : option string;
  settings : SettingsStore
}.

(** State of the store threaded through calls; a raise keeps the state
    reached so far. *)
Definition M (A : Type) : Type := Store → Store * result A.

#[global] Instance M_ret : MRet M := λ A a s, (s, Ok a).

#[global] Instance M_bind : MBind M := λ A B f m s,
  match m s with
  | (s', Ok a) => f a s'
  | (s', Raise e) => (s', Raise e)
  end.

Fixpoint foldM {A B} (f : B → A → M B) (l : list A) (b : B) : M B :=
  match l with
  | [] => mret b
  | a :: l' => b' ← f b a; foldM f l' b'
  end.

(** The key just before [k] in display order, if any. *)
Fixpoint preceding (k : string) (keys : list string) : option string :=
  match keys with
  | k1 :: rest =>
      match rest with
      | k2 :: _ => if decide (k2 = k) then Some k1 else preceding k rest
      | [] => None
      end
  | [] => None
  end.

(** Modelled from the spec: [add(payload, name?)], section 4.2. An absent
    name is resolved as in section 4.1; a colliding name replaces the
    entry; only a previously empty store gets its selection set. *)
Definition add (payload : obj) (name : option string)
    (calling_scope : dict obj) : M string :=
  λ s,
    let accepted_name :=
      match name with
      | Some n => n
      | None => (choose_name calling_scope 1 payload).1
      end in
    (mkStore (dict_set accepted_name (mkEntry payload []) (entries s))
             (match entries s with
              | [] => Some accepted_name
              | _ :: _ => selected_name s
              end)
             (settings s),
     Ok accepted_name).

(** Modelled from the spec: [remove(name)], section 4.2. *)
Definition remove (name : string) : M unit :=
  λ s,
    if dict_contains name (entries s) then
      (mkStore (dict_del name (entries s))
               (if decide (selected_name s = Some name)
                then preceding name (dict_keys (entries s))
                else selected_name s)
               (settings s),
       Ok ())
    else (s, Raise NotFoundError).

(** Modelled from the spec: [select(name)], section 4.2. *)
Definition select (name : string) : M unit :=
  λ s,
    if dict_contains name (entries s) then
      (mkStore (entries s) (Some name) (settings s), Ok ())
    else (s, Raise NotFoundError).

Inductive store_op :=
  | Add (payload : obj) (name : option string) (calling_scope : dict obj)
  | Remove (name : string)
  | Select (name : string).

(** The store after one operation, whether it returned or raised. *)
Definition store_step (s : Store) (o : store_op) : Store :=
  match o with
  | Add payload name scope => (add payload name scope s).1
  | Remove name => (remove name s).1
  | Select name => (select name s).1
  end.

(** The states reached after each operation of a sequence. *)
Fixpoint store_states (s : Store) (ops : list store_op) : list Store :=
  match ops with
  | [] => []
  | o :: ops' => store_step s o :: store_states (store_step s o) ops'
  end.

Definition empty_store (st : SettingsStore) : Store := mkStore [] None st.

(** The invariant of section 3 on the selection. *)
Definition selection_valid (s : Store) : Prop :=
  match selected_name s with
  | None => True
  | Some n => n ∈ dict_keys (entries s)
  end.

(** The invariants of section 3: names are unique, the selection names an
    entry. *)
Definition store_inv (s : Store) : Prop :=
  NoDup (dict_keys (entries s)) ∧ selection_valid s.

(** Position of a key in display order. *)
Fixpoint index_of (k : string) (keys : list string) : option nat :=
  match keys with
  | [] => None
  | k' :: rest => if decide (k' = k) then Some 0 else S <$> index_of k rest
  end.

(** The store after [remove(name)] and then [add(payload, name)]. *)
Definition remove_then_add (name : string) (payload : obj)
    (calling_scope : dict obj) (s : Store) : Store :=
  (add payload (Some name) calling_scope (remove name s).1).1.

(** ** [PandasGui.refresh] (gui.py 315-329) *)

(** One pass of the inner loop: [name] ranges over the names of the store
    as they were when the pass began. *)
Definition refresh_name (f_locals : dict obj) (var_name : string)
    (var_val : obj) (refreshed_names : list string) (name : string)
  : M (list string) :=
  if decide (var_name = name) then
    remove var_name;;
    add var_val (Some var_name) f_locals;;
    mret (refreshed_names ++ [var_name])
  else mret refreshed_names.

Definition refresh_var (f_locals : dict obj) (refreshed_names : list string)
    (var : string * obj) : M (list string) :=
  λ s, foldM (refresh_name f_locals var.1 var.2)
             (dict_keys (entries s)) refreshed_names s.

Definition join_names (names : list string) : string :=
  match names with
  | [] => ""
  | n :: rest => foldl (λ acc x, acc +:+ ", " +:+ x) n rest
  end.

(** [refresh]: [f_locals] is the caller's frame as it is when the method
    runs; the result is the line printed. *)
Definition refresh (f_locals : dict obj) : M string :=
  refreshed_names ← foldM (refresh_var f_locals) f_locals [];
  mret (match refreshed_names with
       | [] => "No matching DataFrames found to refresh"
       | _ :: _ => "Refreshed " +:+ join_names refreshed_names
       end).

(** ** The [PandasGui] window *)

(** The style sheets of [pandasgui.themes.qstylish], which is not among
    the sources: [qstylish.dark()] and [qstylish.light()]. *)
Class Qstylish := {
  qstylish_dark : string;
  qstylish_light : string
}.

(** The settings a fresh [PandasGuiStore()] starts with. *)
Class StoreDefaults := {
  default_settings : SettingsStore
}.

(** What the toolkit is asked to do, in order. *)
Inductive ui_event :=
  | SetStyle (style_name : pyval)
  | ShowWindow (window : nat)
  | ExecEventLoop.

(** The interpreter-wide state the window code touches: the module-level
    list [refs], the next fresh object identity, the toolkit calls made. *)
Record process := mkProcess {
  refs : list nat;
  next_id : nat;
  ui_trace : list ui_event
}.

Definition initial_process : process := mkProcess [] 0 [].

Record PandasGui := mkGui {
  self_id : nat;
  store : Store;
  styleSheet : string
}.

(** [set_theme] (gui.py 200-209): three branches, no [else]. *)
Definition set_theme `{Qstylish} (name : string) (w : PandasGui) : PandasGui :=
  let with_theme sheet value :=
    mkGui (self_id w)
          (mkStore (entries (store w)) (selected_name (store w))
             (mkSettings (block (settings (store w))) (VStr value)
                (style (settings (store w)))
                (other_settings (settings (store w)))))
          sheet in
  if decide (name = "classic") then with_theme "" "classic"
  else if decide (name = "dark") then with_theme qstylish_dark "dark"
  else if decide (name = "light") then with_theme qstylish_light "light"
  else w.

(** [theme == self.store.settings.theme.value] *)
Definition theme_is (name : string) (v : pyval) : bool :=
  match v with
  | VStr s => bool_decide (name = s)
  | _ => false
  end.

(** [init_ui], through [make_menu_bar] (gui.py 187-198): the action of the
    theme equal to the stored one is triggered, which runs [set_theme]. The
    widgets it builds hold no state of the store. *)
Definition init_ui `{Qstylish} (w : PandasGui) : PandasGui :=
  foldl (λ w name,
           if theme_is name (theme (settings (store w)))
           then set_theme name w else w)
        w ["light"; "dark"; "classic"].

(** The loop over [settings.items()] (gui.py 62-64). *)
Fixpoint apply_settings (user_settings : dict pyval) (st : SettingsStore)
  : result SettingsStore :=
  match user_settings with
  | [] => Ok st
  | (key, value) :: rest =>
      match settings_assign key value st with
      | Ok st' => apply_settings rest st'
      | Raise e => Raise e
      end
  end.

(** The loop over [kwargs.items()] (gui.py 73-74). *)
Definition add_dataframes (caller : dict obj) (kwargs : dict obj) (s : Store)
  : Store :=
  foldl (λ s kv, (add kv.2 (Some kv.1) caller s).1) s kwargs.

(** [navigator.setCurrentItem(navigator.topLevelItem(0))]: the first row,
    when there is one, becomes the current one. *)
Definition select_first (s : Store) : Store :=
  match dict_keys (entries s) with
  | [] => s
  | n :: _ => (select n s).1
  end.

Definition emit (ev : ui_event) (p : process) : process :=
  mkProcess (refs p) (next_id p) (ui_trace p ++ [ev]).

(** [PandasGui.__init__] (gui.py 41-82). The new window takes a fresh
    identity; [caller] is the frame it was called from. *)
Definition PandasGui_init `{Qstylish} `{StoreDefaults} (p : process)
    (caller : dict obj) (user_settings : dict pyval) (kwargs : dict obj)
  : process * result PandasGui :=
  let self := next_id p in
  let p := mkProcess (refs p ++ [self]) (S self) (ui_trace p) in
  match apply_settings user_settings default_settings with
  | Raise e => (p, Raise e)
  | Ok st =>
      let w := mkGui self (mkStore [] None st) "" in
      let p := emit (SetStyle (style st)) p in
      let w := init_ui w in
      let w := mkGui (self_id w)
                 (select_first (add_dataframes caller kwargs (store w)))
                 (styleSheet w) in
      let p := emit (ShowWindow self) p in
      if truthy (block (settings (store w)))
      then (emit ExecEventLoop p, Ok w)
      else (p, Ok w)
  end.

(** [refs.remove(self)]: drops the first occurrence, raises [ValueError]
    when there is none. *)
Fixpoint list_remove (x : nat) (l : list nat) : option (list nat) :=
  match l with
  | [] => None
  | y :: l' => if decide (y = x) then Some l' else (y ::.) <$> list_remove x l'
  end.

(** [closeEvent] (gui.py 310-312) of the window with identity [w]. *)
Definition closeEvent (w : nat) (p : process) : process * result unit :=
  match list_remove w (refs p) with
  | Some l => (mkProcess l (next_id p) (ui_trace p), Ok ())
  | None => (p, Raise ValueError)
  end.

(** The life of the module: windows are constructed and closed. *)
Inductive gui_event :=
  | Construct (caller : dict obj) (user_settings : dict pyval)
      (kwargs : dict obj)
  | Close (w : nat).

#[global] Instance gui_event_eq_dec : EqDecision gui_event.
Proof. solve_decision. Defined.

Definition gui_step `{Qstylish} `{StoreDefaults} (p : process)
    (ev : gui_event) : process :=
  match ev with
  | Construct caller user_settings kwargs =>
      (PandasGui_init p caller user_settings kwargs).1
  | Close w => (closeEvent w p).1
  end.

Definition gui_run `{Qstylish} `{StoreDefaults} (p : process)
    (evs : list gui_event) : process :=
  foldl gui_step p evs.

(** How often a window is listed in [refs]. *)
Definition occurrences (w : nat) (l : list nat) : nat :=
  length (filter (λ x, x = w) l).

(** ** Further methods of the window *)

(** [delete_selected_dataframes] (gui.py 241-243): the names of the
    selected navigator rows are removed one after the other. *)
Definition delete_selected_dataframes (selected : list string) : M unit :=
  foldM (λ _ name, remove name) selected ().

(** [l[i]] on a Python list: a negative index counts from the end; out of
    range is [IndexError], rendered as [None]. *)
Definition py_index {A} (l : list A) (i : Z) : option A :=
  if decide (0 ≤ i)%Z then l !! Z.to_nat i
  else if decide (- Z.of_nat (length l) ≤ i)%Z
       then l !! Z.to_nat (Z.of_nat (length l) + i)
       else None.

(** ['-' * n] *)
Fixpoint dashes (n : nat) : string :=
  match n with
  | 0 => ""
  | S n' => "-" +:+ dashes n'
  end.

Definition history_header (name : string) : string :=
  "---- History (" +:+ name +:+ ") ----".

(** [print_history] (gui.py 274-283): the lines printed for the entry at
    [currentIndex] of the store's data, or [None] when indexing raises. *)
Definition print_history (s : Store) (currentIndex : Z)
  : option (list string) :=
  match py_index (entries s) currentIndex with
  | None => None
  | Some (name, pgdf) =>
      match history pgdf with
      | [] => Some ["No actions recorded yet for " +:+ name]
      | _ :: _ =>
          let header := history_header name in
          Some (header :: history pgdf ++ [dashes (String.length header)])
      end
  end.

(** * Properties *)

(** ** Dictionaries *)

Lemma dict_get_set_eq {V} (k : string) (v : V) (d : dict V) :
  dict_get k (dict_set k v d) = Some v.
Proof.
  induction d as [|[k' v'] d IH]; simpl.
  - by rewrite decide_True.
  - destruct (decide (k' = k)) as [->|Hne]; simpl.
    + by rewrite decide_True.
    + by rewrite decide_False.
Qed.

Lemma dict_get_set_ne {V} (k k' : string) (v : V) (d : dict V) :
  k ≠ k' → dict_get k' (dict_set k v d) = dict_get k' d.
Proof.
  intros Hne. induction d as [|[k0 v0] d IH]; simpl.
  - by rewrite decide_False.
  - destruct (decide (k0 = k)) as [->|Hne0]; simpl.
    + by rewrite !decide_False.
    + by rewrite IH.
Qed.

Lemma dict_keys_set {V} (k : string) (v : V) (d : dict V) :
  dict_keys (dict_set k v d) =
  if decide (k ∈ dict_keys d) then dict_keys d else dict_keys d ++ [k].
Proof.
  unfold dict_keys. induction d as [|[k' v'] d IH].
  - rewrite decide_False; [done|]. apply not_elem_of_nil.
  - cbn [dict_set]. destruct (decide (k' = k)) as [->|Hne].
    + rewrite decide_True; [done|]. left.
    + rewrite !fmap_cons, IH. cbn [fst].
      destruct (decide (k ∈ d.*1)) as [Hin|Hnin].
      * rewrite decide_True; [done|]. by right.
      * rewrite decide_False; [done|].
        intros [?|?]%elem_of_cons; congruence.
Qed.

Lemma dict_set_elem_of_keys {V} (k k' : string) (v : V) (d : dict V) :
  k' ∈ dict_keys (dict_set k v d) ↔ k' = k ∨ k' ∈ dict_keys d.
Proof.
  rewrite dict_keys_set. case_decide.
  - split; [by right|]. by intros [->|?].
  - rewrite elem_of_app, list_elem_of_singleton. tauto.
Qed.

Lemma dict_set_NoDup {V} (k : string) (v : V) (d : dict V) :
  NoDup (dict_keys d) → NoDup (dict_keys (dict_set k v d)).
Proof.
  intros Hd. rewrite dict_keys_set. case_decide; [done|].
  apply NoDup_app. split_and!; [done| |apply NoDup_singleton].
  intros x Hx ->%list_elem_of_singleton. done.
Qed.

Lemma dict_get_Some_elem_of {V} (k : string) (v : V) (d : dict V) :
  dict_get k d = Some v → (k, v) ∈ d.
Proof.
  induction d as [|[k' v'] d IH]; simpl; [done|].
  case_decide as Hk.
  - intros [= ->]. subst. left.
  - intros ?. right. auto.
Qed.

Lemma dict_get_NoDup_elem_of {V} (k : string) (v : V) (d : dict V) :
  NoDup (dict_keys d) → (k, v) ∈ d → dict_get k d = Some v.
Proof.
  unfold dict_keys. induction d as [|[k' v'] d IH]; simpl.
  - intros _ Hin. by apply elem_of_nil in Hin.
  - intros [Hnin Hd]%NoDup_cons [Heq|Hin]%elem_of_cons.
    + injection Heq as -> ->. by rewrite decide_True.
    + rewrite decide_False; [auto|].
      intros ->. apply Hnin. apply list_elem_of_fmap. by exists (k, v).
Qed.

Lemma dict_get_None_keys {V} (k : string) (d : dict V) :
  dict_get k d = None ↔ k ∉ dict_keys d.
Proof.
  unfold dict_keys. induction d as [|[k' v'] d IH]; simpl.
  - split; [intros _; apply not_elem_of_nil|done].
  - case_decide as Hk.
    + split; [done|]. intros Hn. exfalso. apply Hn. subst. left.
    + rewrite IH, not_elem_of_cons. split; [|tauto].
      intros ?. split; [congruence|done].
Qed.

Lemma last_write_elem_of {V} (k : string) (v : V) (ws : list (string * V)) :
  last_write k ws = Some v → (k, v) ∈ ws.
Proof.
  induction ws as [|[k' v'] ws IH]; simpl; [done|].
  destruct (last_write k ws) as [v0|].
  - intros [= ->]. right. auto.
  - case_decide; [|done]. intros [= ->]. subst. left.
Qed.

Lemma last_write_None {V} (k : string) (ws : list (string * V)) :
  last_write k ws = None ↔ k ∉ ws.*1.
Proof.
  induction ws as [|[k' v'] ws IH]; simpl.
  - split; [intros _; apply not_elem_of_nil|done].
  - destruct (last_write k ws) as [v0|].
    + split; [done|]. intros [_ Hn]%not_elem_of_cons.
      by apply IH in Hn.
    + case_decide as Hk.
      * split; [done|]. intros Hn. exfalso. apply Hn. subst. left.
      * rewrite not_elem_of_cons. split; [|done].
        intros _. split; [congruence|by apply IH].
Qed.

Lemma last_write_lookup {V} (k : string) (v : V) (ws : list (string * V))
    (i : nat) :
  ws !! i = Some (k, v) →
  (∀ j, i < j → ws.*1 !! j ≠ Some k) →
  last_write k ws = Some v.
Proof.
  revert i. induction ws as [|[k0 v0] ws IH]; intros i Hi Hlater; [done|].
  cbn [last_write]. destruct i as [|i]; simpl in Hi.
  - injection Hi as -> ->.
    assert (last_write k ws = None) as ->.
    { apply last_write_None. intros [j Hj]%list_elem_of_lookup.
      by apply (Hlater (S j)); [lia|]. }
    by rewrite decide_True.
  - rewrite (IH i); [done|done|].
    intros j Hj. apply (Hlater (S j)). lia.
Qed.

Lemma dict_get_update {V} (k : string) (d ws : dict V) :
  dict_get k (dict_update d ws) =
  match last_write k ws with
  | Some v => Some v
  | None => dict_get k d
  end.
Proof.
  unfold dict_update. revert d.
  induction ws as [|[k' v'] ws IH]; intros d; simpl; [done|].
  rewrite IH. destruct (last_write k ws) as [v0|]; [done|].
  case_decide as Hk.
  - subst. apply dict_get_set_eq.
  - by apply dict_get_set_ne.
Qed.

Lemma dict_update_elem_of_keys {V} (k : string) (d ws : dict V) :
  k ∈ dict_keys (dict_update d ws) ↔ k ∈ dict_keys d ∨ k ∈ ws.*1.
Proof.
  unfold dict_update. revert d.
  induction ws as [|[k' v'] ws IH]; intros d; simpl.
  - rewrite elem_of_nil. tauto.
  - rewrite IH, dict_set_elem_of_keys, elem_of_cons. tauto.
Qed.

Lemma dict_update_NoDup {V} (d ws : dict V) :
  NoDup (dict_keys d) → NoDup (dict_keys (dict_update d ws)).
Proof.
  unfold dict_update. revert d.
  induction ws as [|[k' v'] ws IH]; intros d Hd; simpl; [done|].
  apply IH. by apply dict_set_NoDup.
Qed.

(** ** The scan of the calling scope *)

Lemma scan_scope_acc (scope : dict obj) (o : obj) (acc : option string) :
  foldl (λ df_name '(var_name, var_val),
           if py_is var_val o then Some var_name else df_name) acc scope =
  match scan_scope scope o with
  | Some x => Some x
  | None => acc
  end.
Proof.
  unfold scan_scope. revert acc.
  induction scope as [|[x v] scope IH]; intros acc; simpl; [done|].
  rewrite (IH (if py_is v o then Some x else acc)).
  rewrite (IH (if py_is v o then Some x else None)).
  destruct (foldl _ None scope); [done|]. by destruct (py_is v o).
Qed.

Lemma scan_scope_cons (x : string) (v : obj) (scope : dict obj) (o : obj) :
  scan_scope ((x, v) :: scope) o =
  match scan_scope scope o with
  | Some y => Some y
  | None => if py_is v o then Some x else None
  end.
Proof. unfold scan_scope at 1. simpl. apply scan_scope_acc. Qed.

Lemma scan_scope_Some (scope : dict obj) (o : obj) (x : string) :
  scan_scope scope o = Some x → (x, o) ∈ scope.
Proof.
  induction scope as [|[y v] scope IH]; [done|].
  rewrite scan_scope_cons. destruct (scan_scope scope o) as [z|].
  - intros [= ->]. right. auto.
  - unfold py_is. case_bool_decide; [|done]. intros [= ->]. subst. left.
Qed.

Lemma scan_scope_None (scope : dict obj) (o : obj) :
  scan_scope scope o = None ↔ ∀ x, (x, o) ∉ scope.
Proof.
  induction scope as [|[y v] scope IH].
  - split; [intros _ x; apply not_elem_of_nil|done].
  - rewrite scan_scope_cons. destruct (scan_scope scope o) as [z|] eqn:Hs.
    + split; [done|]. intros Hn. apply scan_scope_Some in Hs.
      exfalso. apply (Hn z). by right.
    + unfold py_is. case_bool_decide as Hv.
      * split; [done|]. intros Hn. exfalso. apply (Hn y). subst. left.
      * split; [|done]. intros _ x [[= -> ->]|Hin]%elem_of_cons; [done|].
        destruct IH as [IH _]. by apply (IH eq_refl x).
Qed.

Lemma scan_scope_last (pre post : dict obj) (x : string) (o : obj) :
  (∀ y, (y, o) ∉ post) → scan_scope (pre ++ (x, o) :: post) o = Some x.
Proof.
  intros Hpost. induction pre as [|[y v] pre IH]; simpl.
  - rewrite scan_scope_cons.
    apply scan_scope_None in Hpost as ->.
    unfold py_is. by rewrite bool_decide_eq_true_2.
  - rewrite scan_scope_cons. by rewrite IH.
Qed.

(** ** The naming loop of [show] *)

Lemma resolved_cons (scope : dict obj) (o : obj) (rest : list obj) (n : nat) :
  resolved scope (o :: rest) n =
  ((choose_name scope n o).1, o)
    :: resolved scope rest (choose_name scope n o).2.
Proof. simpl. by destruct (choose_name scope n o). Qed.

Lemma resolve_loop_resolved (scope : dict obj) (args : list obj)
    (d : dict obj) (n : nat) :
  (resolve_loop scope args d n).1 = dict_update d (resolved scope args n).
Proof.
  revert d n. induction args as [|o rest IH]; intros d n; [done|].
  rewrite resolved_cons. simpl.
  destruct (choose_name scope n o) as [df_name n']. apply IH.
Qed.

Lemma show_dataframes_resolved (scope : dict obj) (args : list obj) :
  show_dataframes scope args = dict_update [] (resolved scope args 1).
Proof. apply resolve_loop_resolved. Qed.

Lemma show_dataframes_NoDup (scope : dict obj) (args : list obj) :
  NoDup (dict_keys (show_dataframes scope args)).
Proof.
  rewrite show_dataframes_resolved. apply dict_update_NoDup. constructor.
Qed.

Lemma resolved_snd (scope : dict obj) (args : list obj) (n : nat) :
  (resolved scope args n).*2 = args.
Proof.
  revert n. induction args as [|o rest IH]; intros n; [done|].
  rewrite resolved_cons, fmap_cons, IH. done.
Qed.

Lemma resolved_lookup (scope : dict obj) (args : list obj) (n i : nat)
    (o : obj) :
  args !! i = Some o →
  resolved scope args n !! i =
  Some ((choose_name scope
           (n + length (synthesized scope (take i args) n)) o).1, o).
Proof.
  revert n i. induction args as [|a rest IH]; intros n i Hi; [done|].
  rewrite resolved_cons. destruct i as [|j]; simpl in Hi.
  - injection Hi as ->. simpl. by rewrite Nat.add_0_r.
  - simpl lookup. rewrite (IH _ j) by done.
    replace ((choose_name scope n a).2 +
             length (synthesized scope (take j rest) (choose_name scope n a).2))
      with (n + length (synthesized scope (take (S j) (a :: rest)) n));
      [done|].
    unfold choose_name. simpl.
    destruct (scan_scope scope a); simpl; lia.
Qed.

Lemma synthesized_seq (scope : dict obj) (args : list obj) (n : nat) :
  synthesized scope args n =
  untitled <$> seq n (length (synthesized scope args n)).
Proof.
  revert n. induction args as [|a rest IH]; intros n; simpl; [done|].
  destruct (scan_scope scope a); [apply IH|].
  simpl. f_equal. apply IH.
Qed.

#[global] Instance untitled_inj : Inj (=) (=) untitled.
Proof.
  intros a b Hab. unfold untitled in Hab.
  apply (inj (String.app "untitled_")) in Hab. by apply (inj pretty) in Hab.
Qed.

Lemma resolved_elem_of (scope : dict obj) (args : list obj) (n : nat)
    (k : string) (v : obj) :
  (k, v) ∈ resolved scope args n →
  v ∈ args ∧
  (scan_scope scope v = Some k ∨
   scan_scope scope v = None ∧ k ∈ synthesized scope args n).
Proof.
  revert n. induction args as [|a rest IH]; intros n.
  - intros Hin. by apply elem_of_nil in Hin.
  - rewrite resolved_cons. unfold choose_name. simpl synthesized.
    destruct (scan_scope scope a) as [x|] eqn:Ha; simpl.
    + intros [[= -> ->]|Hin]%elem_of_cons.
      * split; [left|by left].
      * apply IH in Hin as [? ?]. split; [by right|done].
    + intros [[= -> ->]|Hin]%elem_of_cons.
      * split; [left|]. right. split; [done|left].
      * apply IH in Hin as [? [?|[? ?]]]; (split; [by right|]).
        -- by left.
        -- right. split; [done|by right].
Qed.

Lemma resolved_elem_of_scope (scope : dict obj) (args : list obj) (n : nat)
    (x : string) (o : obj) :
  o ∈ args → scan_scope scope o = Some x → (x, o) ∈ resolved scope args n.
Proof.
  intros [i Hi]%list_elem_of_lookup Hs.
  apply list_elem_of_lookup. exists i.
  rewrite (resolved_lookup _ _ _ _ _ Hi). unfold choose_name. by rewrite Hs.
Qed.

Lemma show_dataframes_get (scope : dict obj) (args : list obj) (k : string) :
  dict_get k (show_dataframes scope args) =
  last_write k (resolved scope args 1).
Proof.
  rewrite show_dataframes_resolved, dict_get_update.
  by destruct (last_write k _).
Qed.

Lemma show_dataframes_keys (scope : dict obj) (args : list obj)
    (name : string) :
  name ∈ dict_keys (show_dataframes scope args) ↔
  name ∈ resolved_names scope args.
Proof.
  rewrite show_dataframes_resolved, dict_update_elem_of_keys.
  unfold resolved_names. simpl. rewrite elem_of_nil. tauto.
Qed.

Lemma filter_unique_key (P : string * obj → Prop) `{∀ x, Decision (P x)}
    (d : dict obj) (N : string) :
  NoDup (dict_keys d) →
  (∀ kv, kv ∈ d → P kv → kv.1 = N) →
  length (filter P d) ≤ 1.
Proof.
  unfold dict_keys. induction d as [|kv d IH]; intros Hnd HP; [simpl; lia|].
  rewrite fmap_cons in Hnd. apply NoDup_cons in Hnd as [Hnin Hnd].
  rewrite filter_cons. case_decide as Hkv.
  - assert (filter P d = []) as ->; [|simpl; lia].
    destruct (filter P d) as [|y l] eqn:Hf; [done|].
    assert (y ∈ filter P d) as [Hy Hyd]%list_elem_of_filter
      by (rewrite Hf; left).
    exfalso. apply Hnin. apply list_elem_of_fmap. exists y. split; [|done].
    rewrite (HP kv) by (done || left).
    rewrite (HP y); [done|by right|done].
  - apply IH; [done|]. intros y Hy. apply HP. by right.
Qed.

Example show_two_unnamed :
  show [10; 11] [("df", 3)] [] =
  ShowResult [("untitled_1", 10); ("untitled_2", 11)] [].
Proof. vm_compute. reflexivity. Qed.

Example show_named_and_kw :
  show [3; 10] [("a", 3); ("b", 3)] [("b", 4); ("c", 5)] =
  ShowResult [("b", 3); ("c", 5); ("untitled_1", 10)] [duplicate_warning].
Proof. vm_compute. reflexivity. Qed.

(** C1, as stated, fails: with [df] bound to object 1 in the caller and
    [show(df, df=<object 2>)], the name [df] is both inferred and explicit;
    the merged mapping binds it to the positional payload 1, the keyword
    payload 2 is the one dropped. The warning is logged. *)
Lemma collision_keyword_payload_lost :
  let r := show [1] [("df", 1)] [("df", 2)] in
  dict_get "df" [("df", 2)] = Some 2 ∧
  dict_get "df" (show_dataframes [("df", 1)] [1]) = Some 1 ∧
  dict_get "df" (show_kwargs r) = Some 1 ∧
  dict_get "df" (show_kwargs r) ≠ Some 2 ∧
  show_log r = [duplicate_warning].
Proof. vm_compute. repeat split; congruence. Qed.

(** C1, amended: when an inferred name collides with a keyword name, the
    merged mapping binds the name to the inferred (positional) payload, so
    the keyword argument's payload is the one dropped; the mapping still
    has the name once, the names that do not collide keep their keyword
    payload, the warning is logged, and the merge has no failing branch. *)
Theorem collision_positional_payload_wins (args : list obj)
    (scope kwargs : dict obj) (name : string) :
  name ∈ dict_keys (show_dataframes scope args) →
  name ∈ dict_keys kwargs →
  let r := show args scope kwargs in
  is_Some (dict_get name (show_dataframes scope args)) ∧
  dict_get name (show_kwargs r) =
    dict_get name (show_dataframes scope args) ∧
  (NoDup (dict_keys kwargs) → NoDup (dict_keys (show_kwargs r))) ∧
  (∀ k, k ∉ dict_keys (show_dataframes scope args) →
        dict_get k (show_kwargs r) = dict_get k kwargs) ∧
  show_log r = [duplicate_warning].
Proof.
  intros Hdf Hkw. simpl.
  assert (∀ k, dict_get k (dict_update kwargs (show_dataframes scope args)) =
               match dict_get k (show_dataframes scope args) with
               | Some v => Some v
               | None => dict_get k kwargs
               end) as Hget.
  { intros k. rewrite dict_get_update.
    destruct (last_write k _) as [v|] eqn:Hl.
    - apply last_write_elem_of in Hl.
      by rewrite (dict_get_NoDup_elem_of k v _ (show_dataframes_NoDup _ _) Hl).
    - apply last_write_None in Hl.
      by apply dict_get_None_keys in Hl as ->. }
  destruct (dict_get name (show_dataframes scope args)) as [v|] eqn:Hv;
    [|by apply dict_get_None_keys in Hv].
  split_and!.
  - by eexists.
  - by rewrite Hget, Hv.
  - apply dict_update_NoDup.
  - intros k Hk. rewrite Hget.
    by apply dict_get_None_keys in Hk as ->.
  - destruct (existsb _ _) eqn:He; [done|].
    exfalso. apply not_true_iff_false in He. apply He.
    apply existsb_exists. exists name. split.
    + by apply list_elem_of_In.
    + by apply bool_decide_eq_true_2.
Qed.

Lemma collision_positional_payload_wins_witness :
  dict_get "b" (show_kwargs (show [3; 10] [("a", 3); ("b", 3)]
                              [("b", 4); ("c", 5)])) = Some 3.
Proof.
  destruct (collision_positional_payload_wins [3; 10] [("a", 3); ("b", 3)]
              [("b", 4); ("c", 5)] "b") as (_ & Hget & _).
  - vm_compute. left.
  - vm_compute. left.
  - rewrite Hget. vm_compute. reflexivity.
Defined.

(** C2, as stated, fails: with [a] and [b] both bound to object 7, in that
    order, [show(<object 7>)] names the payload [b]; the first matching
    variable in scope-iteration order is [a]. *)
Lemma first_match_not_chosen :
  let scope := [("a", 7); ("b", 7)] in
  first_match scope 7 = Some "a" ∧
  resolved_names scope [7] = ["b"] ∧
  dict_keys (show_dataframes scope [7]) = ["b"] ∧
  resolved_names scope [7] !! 0 ≠ first_match scope 7.
Proof. vm_compute. repeat split; congruence. Qed.

Lemma show_kwargs_get (args : list obj) (scope kwargs : dict obj)
    (k : string) :
  dict_get k (show_kwargs (show args scope kwargs)) =
  match dict_get k (show_dataframes scope args) with
  | Some v => Some v
  | None => dict_get k kwargs
  end.
Proof.
  simpl. rewrite dict_get_update.
  destruct (last_write k _) as [v|] eqn:Hl.
  - apply last_write_elem_of in Hl.
    by rewrite (dict_get_NoDup_elem_of k v _ (show_dataframes_NoDup _ _) Hl).
  - apply last_write_None in Hl. by apply dict_get_None_keys in Hl as ->.
Qed.

Lemma show_kwargs_keys (args : list obj) (scope kwargs : dict obj)
    (k : string) :
  k ∈ dict_keys (show_dataframes scope args) →
  k ∈ dict_keys (show_kwargs (show args scope kwargs)).
Proof. intros Hk. simpl. apply dict_update_elem_of_keys. by right. Qed.

Lemma resolve_loop_cons (scope : dict obj) (o : obj) (rest : list obj)
    (d : dict obj) (n : nat) :
  resolve_loop scope (o :: rest) d n =
  resolve_loop scope rest (dict_set (choose_name scope n o).1 o d)
    (choose_name scope n o).2.
Proof. simpl. by destruct (choose_name scope n o). Qed.

Lemma resolve_loop_app (scope : dict obj) (a1 a2 : list obj) (d : dict obj)
    (n : nat) :
  resolve_loop scope (a1 ++ a2) d n =
  resolve_loop scope a2 (resolve_loop scope a1 d n).1
    (resolve_loop scope a1 d n).2.
Proof.
  revert d n. induction a1 as [|a a1 IH]; intros d n; [done|].
  rewrite <-app_comm_cons, !resolve_loop_cons. apply IH.
Qed.

(** The loop on the whole call is the loop on the arguments before [i],
    the write for argument [i], and the loop on the arguments after it. *)
Lemma resolve_loop_step (scope : dict obj) (args : list obj) (i : nat)
    (o : obj) :
  args !! i = Some o →
  resolve_loop scope args [] 1 =
  resolve_loop scope (drop (S i) args)
    (dict_set (choose_name scope (untitled_number_at scope args i) o).1 o
       (dataframes_at scope args i))
    (choose_name scope (untitled_number_at scope args i) o).2.
Proof.
  intros Hi. rewrite <-(take_drop_middle args i o Hi) at 1.
  by rewrite resolve_loop_app, resolve_loop_cons.
Qed.

Lemma resolve_loop_counter (scope : dict obj) (l : list obj) (d : dict obj)
    (n : nat) :
  (resolve_loop scope l d n).2 = n + length (filter (unmatched scope) l).
Proof.
  revert d n. induction l as [|a l IH]; intros d n; [simpl; lia|].
  rewrite resolve_loop_cons, IH, filter_cons. unfold choose_name.
  destruct (decide (unmatched scope a)) as [Hu|Hu]; unfold unmatched in Hu.
  - rewrite Hu. simpl. lia.
  - destruct (scan_scope scope a); [simpl; lia|done].
Qed.

Lemma synthesized_length (scope : dict obj) (l : list obj) (n : nat) :
  length (synthesized scope l n) = length (filter (unmatched scope) l).
Proof.
  revert n. induction l as [|a l IH]; intros n; [done|].
  rewrite filter_cons. cbn [synthesized].
  destruct (decide (unmatched scope a)) as [Hu|Hu]; unfold unmatched in Hu.
  - rewrite Hu. simpl. by rewrite IH.
  - destruct (scan_scope scope a); [apply IH|done].
Qed.

Lemma untitled_number_at_count (scope : dict obj) (args : list obj)
    (j : nat) :
  untitled_number_at scope args j =
  S (length (filter (unmatched scope) (take j args))).
Proof. unfold untitled_number_at. by rewrite resolve_loop_counter. Qed.

(** The name under which the loop writes argument [i]. *)
Lemma resolved_names_lookup (scope : dict obj) (args : list obj) (i : nat)
    (o : obj) :
  args !! i = Some o →
  resolved_names scope args !! i =
  Some (choose_name scope (untitled_number_at scope args i) o).1.
Proof.
  intros Hi. unfold resolved_names.
  rewrite list_lookup_fmap, (resolved_lookup _ _ _ _ _ Hi). simpl.
  by rewrite untitled_number_at_count, synthesized_length.
Qed.

Lemma synthesized_untitled (scope : dict obj) (args : list obj) (n : nat)
    (k : string) :
  k ∈ synthesized scope args n → ∃ m, k = untitled m.
Proof.
  rewrite synthesized_seq. intros (m & -> & _)%list_elem_of_fmap.
  by exists m.
Qed.

(** C2, amended: the scan has no [break], so a payload that matches scope
    variables by identity is named after the last matching variable in
    scope-iteration order: that is the name under which the loop of [show]
    writes the payload into the mapping, so the name is a key of the
    mapping, and it is bound to the payload when the scope's names are
    unique and the name is not of the synthesized form. *)
Theorem last_match_chosen (scope pre post : dict obj) (args : list obj)
    (i : nat) (o : obj) (x : string) :
  args !! i = Some o →
  scope = pre ++ (x, o) :: post →
  (∀ y, (y, o) ∉ post) →
  resolve_loop scope args [] 1 =
    resolve_loop scope (drop (S i) args)
      (dict_set x o (dataframes_at scope args i))
      (untitled_number_at scope args i) ∧
  x ∈ dict_keys (show_dataframes scope args) ∧
  (∀ kwargs, x ∈ dict_keys (show_kwargs (show args scope kwargs))) ∧
  (NoDup (dict_keys scope) → (∀ n, x ≠ untitled n) →
   dict_get x (show_dataframes scope args) = Some o ∧
   ∀ kwargs, dict_get x (show_kwargs (show args scope kwargs)) = Some o) ∧
  resolved_names scope args !! i = Some x.
Proof.
  intros Hi -> Hpost.
  set (scope := pre ++ (x, o) :: post).
  assert (scan_scope scope o = Some x) as Hscan
    by by apply scan_scope_last.
  assert (∀ n, choose_name scope n o = (x, n)) as Hname.
  { intros n. unfold choose_name. by rewrite Hscan. }
  assert (resolved_names scope args !! i = Some x) as Hres.
  { by rewrite (resolved_names_lookup _ _ _ _ Hi), Hname. }
  assert (x ∈ dict_keys (show_dataframes scope args)) as Hkey.
  { apply show_dataframes_keys. by eapply list_elem_of_lookup_2. }
  split_and!; [|done| | |done].
  - by rewrite (resolve_loop_step _ _ _ _ Hi), Hname.
  - intros kwargs. by apply show_kwargs_keys.
  - intros Hnd Hform.
    cut (dict_get x (show_dataframes scope args) = Some o).
    { intros Hget. split; [done|]. intros kwargs.
      by rewrite show_kwargs_get, Hget. }
    rewrite show_dataframes_get.
    destruct (last_write x (resolved scope args 1)) as [v|] eqn:Hl.
    + f_equal. apply last_write_elem_of, resolved_elem_of in Hl
        as [_ [Hv|[_ Hv]]].
      * apply scan_scope_Some in Hv, Hscan.
        apply (dict_get_NoDup_elem_of _ _ _ Hnd) in Hv, Hscan. congruence.
      * apply synthesized_untitled in Hv as [m ->]. by destruct (Hform m).
    + apply last_write_None in Hl. exfalso. apply Hl.
      by eapply list_elem_of_lookup_2.
Qed.

Lemma last_match_chosen_witness :
  show_dataframes [("a", 7); ("b", 7); ("c", 8)] [9; 7] =
  [("untitled_1", 9); ("b", 7)] ∧
  dict_get "b" (show_dataframes [("a", 7); ("b", 7); ("c", 8)] [9; 7]) =
  Some 7.
Proof.
  destruct (last_match_chosen [("a", 7); ("b", 7); ("c", 8)]
              [("a", 7)] [("c", 8)] [9; 7] 1 7 "b")
    as (Hloop & _ & _ & Hget & _).
  - reflexivity.
  - reflexivity.
  - intros y [Hy|Hy]%elem_of_cons.
    + discriminate Hy.
    + by apply elem_of_nil in Hy.
  - split.
    + unfold show_dataframes. rewrite Hloop. reflexivity.
    + apply Hget; [compute_done|]. intros n Hn.
      apply (f_equal (λ s, String.length s <? 9)) in Hn.
      unfold untitled in Hn. simpl in Hn. discriminate Hn.
Defined.

Lemma filter_take_le {A} (P : A → Prop) `{!∀ x, Decision (P x)}
    (l : list A) (j i : nat) :
  j ≤ i → length (filter P (take j l)) ≤ length (filter P (take i l)).
Proof.
  intros Hji. rewrite <-(take_drop j (take i l)), take_take.
  rewrite Nat.min_l by done. rewrite filter_app, length_app. lia.
Qed.

Lemma filter_take_S {A} (P : A → Prop) `{!∀ x, Decision (P x)}
    (l : list A) (j : nat) (a : A) :
  l !! j = Some a → P a →
  length (filter P (take (S j) l)) = S (length (filter P (take j l))).
Proof.
  intros Hj Ha. rewrite (take_S_r _ _ _ Hj), filter_app, length_app.
  rewrite filter_cons_True by done. simpl. lia.
Qed.

(** The position of the element of a list that is the [m]-th to satisfy
    a predicate. *)
Lemma filter_nth_position {A} (P : A → Prop) `{!∀ x, Decision (P x)}
    (l : list A) (m : nat) :
  m < length (filter P l) →
  ∃ j a, l !! j = Some a ∧ P a ∧ length (filter P (take j l)) = m.
Proof.
  revert m. induction l as [|b l IH]; intros m Hm; [simpl in Hm; lia|].
  rewrite filter_cons in Hm. destruct (decide (P b)) as [Hb|Hb].
  - destruct m as [|m].
    + by exists 0, b.
    + simpl in Hm. destruct (IH m) as (j & a & Hj & Ha & Hlen); [lia|].
      exists (S j), a. split_and!; [done|done|].
      simpl. rewrite filter_cons_True by done. simpl. by rewrite Hlen.
  - destruct (IH m Hm) as (j & a & Hj & Ha & Hlen).
    exists (S j), a. split_and!; [done|done|].
    simpl. by rewrite filter_cons_False.
Qed.

(** C5: a positional payload with no identity match in the calling scope
    is written by the loop of [show] under [untitled_n], [n] being the
    loop's counter at that point: one more than the number of unmatched
    payloads before it. The names synthesized before it in the call are
    exactly [untitled_1] to [untitled_(n-1)], so [n] is the smallest
    positive integer not yet used for a synthesized name; the first such
    payload is [untitled_1], the second [untitled_2]. The name is a key of
    the mapping, and it is bound to the payload unless a scope variable
    has that very name. *)
Theorem untitled_smallest_unused (scope : dict obj) (args : list obj)
    (i : nat) (o : obj) :
  args !! i = Some o →
  unmatched scope o →
  let n := untitled_number_at scope args i in
  resolve_loop scope args [] 1 =
    resolve_loop scope (drop (S i) args)
      (dict_set (untitled n) o (dataframes_at scope args i)) (S n) ∧
  n = S (length (filter (unmatched scope) (take i args))) ∧
  (∀ j a, j < i → args !! j = Some a → unmatched scope a →
          0 < untitled_number_at scope args j ∧
          untitled_number_at scope args j < n) ∧
  (∀ m, 0 < m → m < n →
        ∃ j a, j < i ∧ args !! j = Some a ∧ unmatched scope a ∧
               untitled_number_at scope args j = m) ∧
  (length (filter (unmatched scope) (take i args)) = 0 →
   untitled n = "untitled_1") ∧
  (length (filter (unmatched scope) (take i args)) = 1 →
   untitled n = "untitled_2") ∧
  untitled n ∈ dict_keys (show_dataframes scope args) ∧
  (∀ kwargs, untitled n ∈ dict_keys (show_kwargs (show args scope kwargs))) ∧
  ((∀ v, (untitled n, v) ∉ scope) →
   dict_get (untitled n) (show_dataframes scope args) = Some o ∧
   ∀ kwargs,
     dict_get (untitled n) (show_kwargs (show args scope kwargs)) = Some o) ∧
  resolved_names scope args !! i = Some (untitled n).
Proof.
  intros Hi Hs n.
  assert (∀ k, choose_name scope k o = (untitled k, S k)) as Hname.
  { intros k. unfold choose_name. by rewrite Hs. }
  assert (n = S (length (filter (unmatched scope) (take i args)))) as Hn
    by apply untitled_number_at_count.
  assert (resolved_names scope args !! i = Some (untitled n)) as Hres.
  { by rewrite (resolved_names_lookup _ _ _ _ Hi), Hname. }
  assert (untitled n ∈ dict_keys (show_dataframes scope args)) as Hkey.
  { apply show_dataframes_keys. by eapply list_elem_of_lookup_2. }
  split_and!; [|done| | | | |done| | |done].
  - by rewrite (resolve_loop_step _ _ _ _ Hi), Hname.
  - intros j a Hj Ha Hua. rewrite untitled_number_at_count, Hn.
    pose proof (filter_take_S (unmatched scope) args j a Ha Hua).
    pose proof (filter_take_le (unmatched scope) args (S j) i ltac:(lia)).
    lia.
  - intros m Hm0 Hm.
    destruct (filter_nth_position (unmatched scope) (take i args) (m - 1))
      as (j & a & Hj & Ha & Hlen); [lia|].
    apply lookup_take_Some in Hj as [Hj Hji].
    exists j, a. split_and!; [done..|].
    rewrite untitled_number_at_count.
    rewrite take_take, Nat.min_l in Hlen by lia. lia.
  - intros Hz. rewrite Hn, Hz. reflexivity.
  - intros Hz. rewrite Hn, Hz. reflexivity.
  - intros kwargs. by apply show_kwargs_keys.
  - intros Hfree.
    cut (dict_get (untitled n) (show_dataframes scope args) = Some o).
    { intros Hget. split; [done|]. intros kwargs.
      by rewrite show_kwargs_get, Hget. }
    rewrite show_dataframes_get.
    apply (last_write_lookup _ _ _ i).
    { rewrite (resolved_lookup _ _ _ _ _ Hi).
      rewrite synthesized_length, <-untitled_number_at_count.
      fold n. by rewrite Hname. }
    intros j Hj Hlater.
    destruct (args !! j) as [a|] eqn:Ha.
    2:{ apply lookup_ge_None in Ha.
        apply lookup_lt_Some in Hlater.
        rewrite length_fmap in Hlater.
        assert (length (resolved scope args 1) = length args) as Hlen'.
        { by rewrite <-(length_fmap snd), resolved_snd. }
        lia. }
    pose proof (resolved_names_lookup scope _ _ _ Ha) as Hja.
    unfold resolved_names in Hja. rewrite Hja in Hlater.
    injection Hlater as Hlater. unfold choose_name in Hlater.
    destruct (scan_scope scope a) as [y|] eqn:Hy; simpl in Hlater.
    + apply scan_scope_Some in Hy. subst y. by apply (Hfree a).
    + apply (inj untitled) in Hlater.
      rewrite untitled_number_at_count in Hlater.
      pose proof (filter_take_S (unmatched scope) args i o Hi Hs).
      pose proof (filter_take_le (unmatched scope) args (S i) j ltac:(lia)).
      lia.
Qed.

Lemma untitled_smallest_unused_witness :
  show_dataframes [("df", 3)] [10; 3; 11] =
  [("untitled_1", 10); ("df", 3); ("untitled_2", 11)] ∧
  dict_get "untitled_2" (show_dataframes [("df", 3)] [10; 3; 11]) = Some 11.
Proof.
  destruct (untitled_smallest_unused [("df", 3)] [10; 3; 11] 2 11)
    as (Hloop & _ & _ & _ & _ & _  & _ & _ & Hget & _).
  - reflexivity.
  - reflexivity.
  - split.
    + unfold show_dataframes. rewrite Hloop. reflexivity.
    + apply Hget. intros v Hv. apply list_elem_of_singleton in Hv.
      discriminate Hv.
Defined.

Lemma resolved_sound (scope : dict obj) (args : list obj) (n : nat) :
  0 < n →
  Forall2 (λ o name,
             (name, o) ∈ scope ∨
             ∃ n, 0 < n ∧ name = untitled n ∧ scan_scope scope o = None)
          args (resolved scope args n).*1.
Proof.
  revert n. induction args as [|o rest IH]; intros n Hn; [constructor|].
  rewrite resolved_cons, fmap_cons. unfold choose_name.
  destruct (scan_scope scope o) as [x|] eqn:Hs; simpl.
  - constructor; [|by apply IH]. left. by apply scan_scope_Some.
  - constructor; [|apply IH; lia]. right. by exists n.
Qed.

(** C6: the naming loop is a total function: every positional payload, in
    order, gets a name that is either a scope variable bound to that very
    object or a synthesized [untitled_n] with [n] positive; the mapping it
    builds has each resolved name exactly once as a key. *)
Theorem resolution_total (scope : dict obj) (args : list obj) :
  Forall2 (λ o name,
             (name, o) ∈ scope ∨
             ∃ n, 0 < n ∧ name = untitled n ∧ scan_scope scope o = None)
          args (resolved_names scope args) ∧
  NoDup (dict_keys (show_dataframes scope args)) ∧
  ∀ name, name ∈ dict_keys (show_dataframes scope args) ↔
          name ∈ resolved_names scope args.
Proof.
  split_and!.
  - apply resolved_sound. lia.
  - apply show_dataframes_NoDup.
  - apply show_dataframes_keys.
Qed.

(** C9, as stated, fails: the same object passed twice with no variable
    bound to it gets a fresh [untitled_] name at each occurrence, and the
    mapping holds two entries for it. *)
Lemma repeated_unbound_object_two_entries :
  resolved_names [] [5; 5] = ["untitled_1"; "untitled_2"] ∧
  show_dataframes [] [5; 5] = [("untitled_1", 5); ("untitled_2", 5)] ∧
  length (entries_for 5 (show_dataframes [] [5; 5])) = 2.
Proof. vm_compute. done. Qed.

(** C9, amended: when the object is bound to a variable of the calling
    scope, every occurrence of it resolves to the same variable name; the
    mapping then holds at most one entry for the object, under that name,
    and exactly one when the scope's names are unique and that name is not
    also synthesized in the call. *)
Theorem repeated_bound_object_one_entry (scope : dict obj) (args : list obj)
    (o : obj) (N : string) :
  scan_scope scope o = Some N →
  o ∈ args →
  (∀ i, args !! i = Some o → resolved_names scope args !! i = Some N) ∧
  length (entries_for o (show_dataframes scope args)) ≤ 1 ∧
  (∀ k, (k, o) ∈ show_dataframes scope args → k = N) ∧
  (NoDup (dict_keys scope) →
   N ∉ synthesized_names scope args →
   entries_for o (show_dataframes scope args) = [(N, o)]).
Proof.
  intros Hs Hin.
  assert (∀ k, (k, o) ∈ show_dataframes scope args → k = N) as Hkey.
  { intros k Hk.
    apply dict_get_NoDup_elem_of in Hk; [|apply show_dataframes_NoDup].
    rewrite show_dataframes_get in Hk.
    apply last_write_elem_of, resolved_elem_of in Hk as [_ [Hk|[Hk _]]];
      congruence. }
  assert (length (entries_for o (show_dataframes scope args)) ≤ 1) as Hlen.
  { apply (filter_unique_key _ _ N); [apply show_dataframes_NoDup|].
    intros [k v] Hkv Hv. simpl in *. subst v. by apply Hkey. }
  split_and!; [|done|done|].
  - intros i Hi. unfold resolved_names.
    rewrite list_lookup_fmap, (resolved_lookup _ _ _ _ _ Hi). simpl.
    unfold choose_name. by rewrite Hs.
  - intros Hnd Hsyn.
    assert ((N, o) ∈ show_dataframes scope args) as HN.
    { apply dict_get_Some_elem_of. rewrite show_dataframes_get.
      destruct (last_write N (resolved scope args 1)) as [v|] eqn:Hl.
      - f_equal. apply last_write_elem_of, resolved_elem_of in Hl
          as [_ [Hv|[_ Hv]]]; [|done].
        apply scan_scope_Some in Hv, Hs.
        apply (dict_get_NoDup_elem_of _ _ _ Hnd) in Hv, Hs. congruence.
      - apply last_write_None in Hl. exfalso. apply Hl.
        apply list_elem_of_fmap. exists (N, o). split; [done|].
        by apply resolved_elem_of_scope. }
    assert ((N, o) ∈ entries_for o (show_dataframes scope args)) as Hmem.
    { apply list_elem_of_filter. done. }
    destruct (entries_for o (show_dataframes scope args)) as [|e [|e' l]];
      simpl in Hlen.
    + by apply elem_of_nil in Hmem.
    + by apply list_elem_of_singleton in Hmem as ->.
    + lia.
Qed.

Lemma repeated_bound_object_one_entry_witness :
  entries_for 3 (show_dataframes [("a", 3); ("b", 4)] [3; 9; 3]) = [("a", 3)].
Proof.
  destruct (repeated_bound_object_one_entry [("a", 3); ("b", 4)] [3; 9; 3]
              3 "a") as (_ & _ & _ & Hone).
  - reflexivity.
  - left.
  - apply Hone.
    + compute_done.
    + compute_done.
Defined.

(** ** The application store *)

Lemma bind_Ok {A B} (m : M A) (f : A → M B) (s s' : Store) (a : A) :
  m s = (s', Ok a) → (m ≫= f) s = f a s'.
Proof. intros Hm. unfold mbind, M_bind. by rewrite Hm. Qed.

Lemma bind_Raise {A B} (m : M A) (f : A → M B) (s s' : Store) (e : exn) :
  m s = (s', Raise e) → (m ≫= f) s = (s', Raise e).
Proof. intros Hm. unfold mbind, M_bind. by rewrite Hm. Qed.

Lemma foldM_cons {A B} (f : B → A → M B) (a : A) (l : list A) (b : B)
    (s : Store) :
  foldM f (a :: l) b s = (f b a ≫= foldM f l) s.
Proof. done. Qed.

Lemma foldM_app_Ok {A B} (f : B → A → M B) (l1 l2 : list A) (b b' : B)
    (s s' : Store) :
  foldM f l1 b s = (s', Ok b') →
  foldM f (l1 ++ l2) b s = foldM f l2 b' s'.
Proof.
  revert b s. induction l1 as [|a l1 IH]; intros b s; simpl.
  - unfold mret, M_ret. by intros [= -> ->].
  - unfold mbind, M_bind. destruct (f b a s) as [s1 [b1|e]]; [apply IH|done].
Qed.

Lemma dict_del_keys_elem_of {V} (k k' : string) (d : dict V) :
  NoDup (dict_keys d) →
  k' ∈ dict_keys (dict_del k d) ↔ k' ≠ k ∧ k' ∈ dict_keys d.
Proof.
  unfold dict_keys. induction d as [|[k0 v0] d IH]; intros Hnd.
  - simpl. rewrite elem_of_nil. tauto.
  - rewrite fmap_cons in Hnd. apply NoDup_cons in Hnd as [Hnin Hnd].
    cbn [dict_del]. destruct (decide (k0 = k)) as [->|Hne].
    + rewrite fmap_cons, elem_of_cons. cbn [fst]. split.
      * intros Hk'. split; [|by right]. by intros ->.
      * intros [Hk' [?|?]]; done.
    + rewrite !fmap_cons, !elem_of_cons, IH by done. cbn [fst].
      split; [|tauto]. intros [->|[? ?]]; [|tauto]. split; [done|by left].
Qed.

Lemma dict_del_NoDup {V} (k : string) (d : dict V) :
  NoDup (dict_keys d) → NoDup (dict_keys (dict_del k d)).
Proof.
  unfold dict_keys. induction d as [|[k0 v0] d IH]; intros Hnd; [done|].
  rewrite fmap_cons in Hnd. apply NoDup_cons in Hnd as Hc.
  destruct Hc as [Hnin Hnd'].
  cbn [dict_del]. destruct (decide (k0 = k)) as [->|Hne]; [done|].
  rewrite fmap_cons. apply NoDup_cons. split; [|by apply IH].
  cbn [fst]. intros Hin. apply Hnin.
  by apply (dict_del_keys_elem_of k k0 d Hnd') in Hin as [_ ?].
Qed.

Lemma dict_del_length {V} (k : string) (d : dict V) :
  k ∈ dict_keys d → S (length (dict_del k d)) = length d.
Proof.
  unfold dict_keys. induction d as [|[k0 v0] d IH]; intros Hin.
  - by apply elem_of_nil in Hin.
  - cbn [dict_del]. destruct (decide (k0 = k)) as [->|Hne]; [done|].
    rewrite fmap_cons in Hin. apply elem_of_cons in Hin as [?|Hin];
      [by subst|].
    simpl. by rewrite IH.
Qed.

Lemma preceding_elem_of (k p : string) (keys : list string) :
  NoDup keys → preceding k keys = Some p → p ≠ k ∧ p ∈ keys.
Proof.
  induction keys as [|k1 rest IH]; intros Hnd; [done|].
  apply NoDup_cons in Hnd as [Hnin Hnd].
  cbn [preceding]. destruct rest as [|k2 rest']; [done|].
  destruct (decide (k2 = k)) as [->|Hne].
  - intros [= ->]. split; [|left]. intros ->. apply Hnin. left.
  - intros Hp. apply IH in Hp as [? ?]; [|done]. split; [done|by right].
Qed.

Lemma add_inv (payload : obj) (name : option string) (scope : dict obj)
    (s : Store) :
  store_inv s → store_inv (add payload name scope s).1.
Proof.
  intros [Hnd Hsel]. unfold add, store_inv, selection_valid in *. simpl.
  split; [by apply dict_set_NoDup|].
  destruct (entries s) as [|e es] eqn:He.
  - apply dict_set_elem_of_keys. by left.
  - destruct (selected_name s) as [n|]; [|done].
    apply dict_set_elem_of_keys. by right.
Qed.

Lemma remove_inv (name : string) (s : Store) :
  store_inv s → store_inv (remove name s).1.
Proof.
  intros [Hnd Hsel]. unfold remove.
  destruct (dict_contains name (entries s)); [|done].
  unfold store_inv, selection_valid in *. simpl.
  split; [by apply dict_del_NoDup|].
  destruct (decide (selected_name s = Some name)) as [Heq|Hne].
  - destruct (preceding name (dict_keys (entries s))) as [p|] eqn:Hp;
      [|done].
    apply dict_del_keys_elem_of; [done|].
    by apply preceding_elem_of in Hp.
  - destruct (selected_name s) as [n|]; [|done].
    apply dict_del_keys_elem_of; [done|]. split; [congruence|done].
Qed.

Lemma select_inv (name : string) (s : Store) :
  store_inv s → store_inv (select name s).1.
Proof.
  intros [Hnd Hsel]. unfold select, dict_contains.
  case_bool_decide as Hin; [|done].
  by split.
Qed.

Lemma store_step_inv (s : Store) (o : store_op) :
  store_inv s → store_inv (store_step s o).
Proof.
  intros Hs. destruct o; simpl.
  - by apply add_inv.
  - by apply remove_inv.
  - by apply select_inv.
Qed.

Lemma store_states_inv (s : Store) (ops : list store_op) :
  store_inv s → Forall store_inv (store_states s ops).
Proof.
  revert s. induction ops as [|o ops IH]; intros s Hs; simpl; [constructor|].
  constructor; [by apply store_step_inv|]. by apply IH, store_step_inv.
Qed.

(** C4: from the empty store, after each [add], [remove] or [select] of
    any finite sequence, whether the call returned or raised,
    [selected_name] is none or a key of [entries] (and names are unique). *)
Theorem selection_always_valid (st : SettingsStore) (ops : list store_op) :
  Forall (λ s, selection_valid s ∧ NoDup (dict_keys (entries s)))
         (store_states (empty_store st) ops).
Proof.
  eapply Forall_impl; [apply store_states_inv|].
  - split; [constructor|done].
  - by intros s [? ?].
Qed.

(** ** [refresh] *)

Lemma dict_get_del_ne {V} (k k' : string) (d : dict V) :
  k ≠ k' → dict_get k' (dict_del k d) = dict_get k' d.
Proof.
  intros Hne. induction d as [|[k0 v0] d IH]; [done|].
  cbn [dict_del dict_get]. destruct (decide (k0 = k)) as [->|Hk0].
  - by rewrite decide_False.
  - cbn [dict_get]. by rewrite IH.
Qed.

Lemma index_of_last (k : string) (l : list string) :
  k ∉ l → index_of k (l ++ [k]) = Some (length l).
Proof.
  induction l as [|k0 l IH]; intros Hnin; cbn [app index_of].
  - by rewrite decide_True.
  - apply not_elem_of_cons in Hnin as [Hne Hnin].
    rewrite decide_False by done. by rewrite IH.
Qed.

Lemma refresh_name_skip (fl : dict obj) (x : string) (v : obj)
    (names acc : list string) (s : Store) :
  x ∉ names → foldM (refresh_name fl x v) names acc s = (s, Ok acc).
Proof.
  induction names as [|k rest IH]; intros Hnin; [done|].
  apply not_elem_of_cons in Hnin as [Hne Hnin].
  rewrite foldM_cons. erewrite bind_Ok; [by apply IH|].
  unfold refresh_name. by rewrite decide_False.
Qed.

Lemma refresh_name_hit (fl : dict obj) (x : string) (v : obj)
    (names acc : list string) (s : Store) :
  NoDup names → x ∈ names → x ∈ dict_keys (entries s) →
  foldM (refresh_name fl x v) names acc s =
  (remove_then_add x v fl s, Ok (acc ++ [x])).
Proof.
  intros Hnd Hin Hs. induction names as [|k rest IH].
  - by apply elem_of_nil in Hin.
  - apply NoDup_cons in Hnd as [Hnin Hnd].
    rewrite foldM_cons.
    destruct (decide (x = k)) as [<-|Hne].
    + erewrite bind_Ok; [by apply refresh_name_skip|].
      unfold refresh_name. rewrite decide_True by done.
      unfold remove_then_add, mbind, M_bind, remove, dict_contains.
      by rewrite bool_decide_eq_true_2.
    + apply elem_of_cons in Hin as [?|Hin]; [done|].
      erewrite bind_Ok; [by apply IH|].
      unfold refresh_name. by rewrite decide_False.
Qed.

Lemma refresh_var_hit (fl : dict obj) (acc : list string) (x : string)
    (v : obj) (s : Store) :
  NoDup (dict_keys (entries s)) → x ∈ dict_keys (entries s) →
  refresh_var fl acc (x, v) s = (remove_then_add x v fl s, Ok (acc ++ [x])).
Proof. intros Hnd Hin. by apply refresh_name_hit. Qed.

Lemma refresh_vars_skip (fl l : dict obj) (acc : list string) (s : Store) :
  (∀ x v, (x, v) ∈ l → x ∉ dict_keys (entries s)) →
  foldM (refresh_var fl) l acc s = (s, Ok acc).
Proof.
  induction l as [|[x v] l IH]; intros Hl; [done|].
  rewrite foldM_cons. erewrite bind_Ok.
  - apply IH. intros y w Hy. apply (Hl y w). by right.
  - apply refresh_name_skip, (Hl x v). left.
Qed.

Lemma remove_then_add_keys (n : string) (p : obj) (fl : dict obj)
    (s : Store) :
  NoDup (dict_keys (entries s)) → n ∈ dict_keys (entries s) →
  dict_keys (entries (remove_then_add n p fl s)) =
  dict_keys (dict_del n (entries s)) ++ [n].
Proof.
  intros Hnd Hin. unfold remove_then_add, remove, dict_contains.
  rewrite bool_decide_eq_true_2 by done. simpl.
  rewrite dict_keys_set, decide_False; [done|].
  rewrite dict_del_keys_elem_of by done. tauto.
Qed.

(** C3, as stated, fails: a store showing [a] (selected, with one recorded
    edit) and then [b], refreshed from a frame where [a] is bound to
    object 5. The entry [a] moves from first to last place and the
    selection is lost; only the history part of the claim holds. *)
Lemma refresh_moves_entry_last :
  let st := mkSettings (VBool true) (VStr "light") (VStr "Fusion") [] in
  let s := mkStore [("a", mkEntry 1 ["edit"]); ("b", mkEntry 2 [])]
             (Some "a") st in
  let r := refresh [("a", 5)] s in
  r.2 = Ok "Refreshed a" ∧
  entries r.1 = [("b", mkEntry 2 []); ("a", mkEntry 5 [])] ∧
  index_of "a" (dict_keys (entries s)) = Some 0 ∧
  index_of "a" (dict_keys (entries r.1)) = Some 1 ∧
  selected_name s = Some "a" ∧
  selected_name r.1 = None.
Proof. vm_compute. done. Qed.

(** C3, amended: [refresh] removes the entry and adds it again. For a store
    with unique names holding [n], refreshed from a frame in which [n] is
    the only variable that names an entry, the call returns, the other
    entries keep their order and content and [n] is re-appended last (its
    position is kept only if it was last already); the new entry holds the
    new payload and an empty history; the selection is what [remove] then
    [add] leave: [n] stays selected only when it was the sole entry. *)
Theorem refresh_reappends (fl pre post : dict obj) (n : string) (p : obj)
    (s : Store) :
  NoDup (dict_keys (entries s)) →
  n ∈ dict_keys (entries s) →
  fl = pre ++ (n, p) :: post →
  (∀ x v, (x, v) ∈ pre ++ post → x ∉ dict_keys (entries s)) →
  ∃ s', refresh fl s = (s', Ok ("Refreshed " +:+ n)) ∧
        dict_keys (entries s') = dict_keys (dict_del n (entries s)) ++ [n] ∧
        index_of n (dict_keys (entries s')) = Some (length (entries s) - 1) ∧
        dict_get n (entries s') = Some (mkEntry p []) ∧
        (∀ k, k ≠ n → dict_get k (entries s') = dict_get k (entries s)) ∧
        selected_name s' =
          match dict_del n (entries s) with
          | [] => Some n
          | _ :: _ =>
              if decide (selected_name s = Some n)
              then preceding n (dict_keys (entries s))
              else selected_name s
          end ∧
        (selected_name s = Some n →
         selected_name s' = Some n ↔ length (entries s) = 1).
Proof.
  intros Hnd Hin -> Hother.
  assert (refresh (pre ++ (n, p) :: post) s =
          (remove_then_add n p (pre ++ (n, p) :: post) s,
           Ok ("Refreshed " +:+ n))) as Hrun.
  { unfold refresh.
    erewrite (bind_Ok _ _ s (remove_then_add n p _ s) [n]); [done|].
    erewrite foldM_app_Ok.
    2:{ apply refresh_vars_skip. intros x v Hx. apply (Hother x v).
        apply elem_of_app. by left. }
    rewrite foldM_cons. erewrite bind_Ok.
    2:{ by apply refresh_var_hit. }
    apply refresh_vars_skip. intros x v Hx.
    rewrite remove_then_add_keys by done. intros Hk.
    assert (x ∈ dict_keys (entries s)) as Hxs.
    { apply elem_of_app in Hk as [Hk|Hk].
      - by apply dict_del_keys_elem_of in Hk as [_ ?].
      - by apply list_elem_of_singleton in Hk as ->. }
    revert Hxs. apply (Hother x v). apply elem_of_app. by right. }
  exists (remove_then_add n p (pre ++ (n, p) :: post) s).
  pose proof (remove_then_add_keys n p (pre ++ (n, p) :: post) s Hnd Hin)
    as Hkeys.
  pose proof (dict_del_length n (entries s) Hin) as Hlen.
  assert (n ∉ dict_keys (dict_del n (entries s))) as Hgone.
  { rewrite dict_del_keys_elem_of by done. tauto. }
  assert (selected_name (remove_then_add n p (pre ++ (n, p) :: post) s) =
          match dict_del n (entries s) with
          | [] => Some n
          | _ :: _ =>
              if decide (selected_name s = Some n)
              then preceding n (dict_keys (entries s))
              else selected_name s
          end) as Hsel.
  { unfold remove_then_add, remove, dict_contains.
    rewrite bool_decide_eq_true_2 by done. done. }
  split_and!; [done|done| | | |done|].
  - rewrite Hkeys, index_of_last by done. f_equal.
    unfold dict_keys. rewrite length_fmap. lia.
  - unfold remove_then_add, remove, dict_contains.
    rewrite bool_decide_eq_true_2 by done. simpl. apply dict_get_set_eq.
  - intros k Hk. unfold remove_then_add, remove, dict_contains.
    rewrite bool_decide_eq_true_2 by done. simpl.
    rewrite dict_get_set_ne by done. by apply dict_get_del_ne.
  - intros Hsn. rewrite Hsel.
    destruct (dict_del n (entries s)) as [|e es] eqn:Hdel.
    + simpl in Hlen. split; [intros _; lia|done].
    + simpl in Hlen. rewrite decide_True by done. split; [|lia].
      intros Hp. apply preceding_elem_of in Hp as [? _]; done.
Qed.

Lemma refresh_reappends_witness :
  ∃ s', refresh [("x", 9); ("a", 5)]
          (mkStore [("a", mkEntry 1 ["edit"]); ("b", mkEntry 2 [])]
             (Some "b")
             (mkSettings (VBool true) (VStr "light") (VStr "Fusion") []))
        = (s', Ok "Refreshed a") ∧
        dict_keys (entries s') = ["b"; "a"] ∧
        dict_get "a" (entries s') = Some (mkEntry 5 []).
Proof.
  destruct (refresh_reappends [("x", 9); ("a", 5)] [("x", 9)] [] "a" 5
              (mkStore [("a", mkEntry 1 ["edit"]); ("b", mkEntry 2 [])]
                 (Some "b")
                 (mkSettings (VBool true) (VStr "light") (VStr "Fusion") [])))
    as (s' & Hrun & Hkeys & _ & Hget & _).
  - compute_done.
  - compute_done.
  - reflexivity.
  - intros x v Hx. apply list_elem_of_singleton in Hx as [= -> ->].
    compute_done.
  - exists s'. split_and!; done.
Defined.

(** ** The window: themes *)

Lemma set_theme_block `{Qstylish} (name : string) (w : PandasGui) :
  block (settings (store (set_theme name w))) = block (settings (store w)) ∧
  entries (store (set_theme name w)) = entries (store w) ∧
  selected_name (store (set_theme name w)) = selected_name (store w) ∧
  self_id (set_theme name w) = self_id w.
Proof. unfold set_theme. by repeat case_decide. Qed.

(** C10: [set_theme] with a name other than [classic], [dark] and [light]
    leaves the window as it was: same style sheet, same stored theme. *)
Theorem set_theme_unknown_name `{Qstylish} (name : string) (w : PandasGui) :
  name ≠ "classic" → name ≠ "dark" → name ≠ "light" →
  styleSheet (set_theme name w) = styleSheet w ∧
  theme (settings (store (set_theme name w))) = theme (settings (store w)) ∧
  set_theme name w = w.
Proof.
  intros Hc Hd Hl. unfold set_theme. by rewrite !decide_False.
Qed.

Lemma set_theme_unknown_name_witness :
  let sheets := {| qstylish_dark := "QWidget { color: white }";
                   qstylish_light := "QWidget { color: black }" |} in
  let w := mkGui 0
             (mkStore [] None
                (mkSettings (VBool false) (VStr "dark") (VStr "Fusion") []))
             "QWidget { color: white }" in
  styleSheet (@set_theme sheets "solarized" w) = "QWidget { color: white }" ∧
  theme (settings (store (@set_theme sheets "solarized" w))) = VStr "dark".
Proof.
  intros sheets w.
  destruct (@set_theme_unknown_name sheets "solarized" w)
    as (Hsheet & Htheme & _); [done..|].
  by rewrite Hsheet, Htheme.
Defined.

(** ** The window: construction *)

Lemma init_ui_preserves `{Qstylish} (w : PandasGui) :
  block (settings (store (init_ui w))) = block (settings (store w)) ∧
  entries (store (init_ui w)) = entries (store w) ∧
  selected_name (store (init_ui w)) = selected_name (store w) ∧
  self_id (init_ui w) = self_id w.
Proof.
  unfold init_ui. simpl.
  repeat match goal with
         | |- context [if ?b then set_theme ?n ?x else ?x] =>
             let Hs := fresh in
             pose proof (set_theme_block n x) as Hs;
             destruct b
         end;
    intuition congruence.
Qed.

Lemma add_dataframes_settings (caller kwargs : dict obj) (s : Store) :
  settings (add_dataframes caller kwargs s) = settings s.
Proof.
  unfold add_dataframes. revert s.
  induction kwargs as [|[k v] kwargs IH]; intros s; simpl; [done|].
  by rewrite IH.
Qed.

Lemma select_first_settings (s : Store) :
  settings (select_first s) = settings s.
Proof.
  unfold select_first. destruct (dict_keys (entries s)) as [|n l]; [done|].
  unfold select. by destruct (dict_contains n (entries s)).
Qed.

Lemma settings_assign_block (key : string) (value : pyval)
    (st st' : SettingsStore) :
  settings_assign key value st = Ok st' →
  block st' = if decide (key = "block") then value else block st.
Proof.
  unfold settings_assign. repeat case_decide; try (by intros [= <-]).
  destruct (dict_contains key (other_settings st)); [|done].
  by intros [= <-].
Qed.

Lemma apply_settings_block (user_settings : dict pyval)
    (st0 st : SettingsStore) :
  apply_settings user_settings st0 = Ok st →
  block st = default (block st0) (last_write "block" user_settings).
Proof.
  revert st0. induction user_settings as [|[k v] rest IH]; intros st0; simpl.
  - by intros [= ->].
  - destruct (settings_assign k v st0) as [st1|e] eqn:Hassign; [|done].
    intros Hrest. rewrite (IH _ Hrest).
    apply settings_assign_block in Hassign.
    destruct (last_write "block" rest); [done|].
    rewrite Hassign. by case_decide.
Qed.

(** C7: when the caller's settings are accepted, the constructor returns
    the window, and among the toolkit calls it makes the event loop is
    entered exactly when the [block] setting, as it stands after the
    caller's settings were written over the defaults, is true; with a false
    [block] the constructor returns without starting the loop. *)
Theorem init_blocks_iff_block `{Qstylish} `{StoreDefaults} (p : process)
    (caller : dict obj) (user_settings : dict pyval) (kwargs : dict obj)
    (st : SettingsStore) :
  apply_settings user_settings default_settings = Ok st →
  ∃ p' w evs,
    PandasGui_init p caller user_settings kwargs = (p', Ok w) ∧
    ui_trace p' = ui_trace p ++ evs ∧
    block (settings (store w)) = block st ∧
    block st =
      default (block default_settings) (last_write "block" user_settings) ∧
    (ExecEventLoop ∈ evs ↔ truthy (block st) = true) ∧
    (truthy (block st) = false →
     evs = [SetStyle (style st); ShowWindow (next_id p)]).
Proof.
  intros Hst. unfold PandasGui_init. rewrite Hst. cbn zeta.
  set (w0 := mkGui (next_id p) (mkStore [] None st) "").
  destruct (init_ui_preserves w0) as (Hb & _ & _ & _).
  set (w1 := mkGui _ _ _).
  assert (block (settings (store w1)) = block st) as Hblock.
  { unfold w1. simpl.
    by rewrite select_first_settings, add_dataframes_settings, Hb. }
  rewrite Hblock.
  destruct (truthy (block st)) eqn:Htruthy.
  - eexists _, w1, [SetStyle (style st); ShowWindow (next_id p);
                    ExecEventLoop].
    split_and!; [done| |done|by apply apply_settings_block| |done].
    + simpl. by rewrite <-!app_assoc.
    + split; [done|]. intros _. do 2 right. left.
  - eexists _, w1, [SetStyle (style st); ShowWindow (next_id p)].
    split_and!; [done| |done|by apply apply_settings_block| |done].
    + simpl. by rewrite <-!app_assoc.
    + split; [|done].
      intros [?|[?|?%elem_of_nil]%elem_of_cons]%elem_of_cons; done.
Qed.

Lemma init_blocks_iff_block_witness :
  let sheets := {| qstylish_dark := "QWidget { color: white }";
                   qstylish_light := "QWidget { color: black }" |} in
  let defaults :=
    {| default_settings :=
         mkSettings (VBool true) (VStr "dark") (VStr "Fusion") [] |} in
  ExecEventLoop ∉
    ui_trace (@PandasGui_init sheets defaults initial_process []
                [("block", VBool false)] [("df", 1)]).1.
Proof.
  intros sheets defaults.
  destruct (@init_blocks_iff_block sheets defaults initial_process []
              [("block", VBool false)] [("df", 1)]
              (mkSettings (VBool false) (VStr "dark") (VStr "Fusion") []))
    as (p' & w & evs & Hrun & Htrace & _ & _ & Hloop & _).
  - reflexivity.
  - rewrite Hrun. simpl. rewrite Htrace. simpl.
    intros Hin. by apply Hloop in Hin.
Defined.

(** ** The window registry [refs] *)

Lemma occurrences_snoc (w x : nat) (l : list nat) :
  occurrences w (l ++ [x]) =
  occurrences w l + (if decide (x = w) then 1 else 0).
Proof.
  unfold occurrences. rewrite filter_app, length_app. f_equal.
  rewrite filter_cons, filter_nil. by case_decide.
Qed.

Lemma occurrences_zero (w : nat) (l : list nat) :
  occurrences w l = 0 ↔ w ∉ l.
Proof.
  unfold occurrences. induction l as [|y l IH].
  - split; [intros _; apply not_elem_of_nil|done].
  - rewrite filter_cons, not_elem_of_cons. case_decide; simpl.
    + split; [lia|]. intros [? _]. congruence.
    + rewrite IH. split; [|tauto]. intros ?. split; [congruence|done].
Qed.

Lemma list_remove_occurrences (x w : nat) (l l' : list nat) :
  list_remove x l = Some l' →
  occurrences w l =
  occurrences w l' + (if decide (x = w) then 1 else 0).
Proof.
  unfold occurrences. revert l'.
  induction l as [|y l IH]; intros l'; [done|].
  cbn [list_remove]. destruct (decide (y = x)) as [->|Hne].
  - intros [= ->]. rewrite filter_cons. repeat case_decide; simpl; lia.
  - destruct (list_remove x l) as [l0|]; [|done].
    intros [= <-]. specialize (IH l0 eq_refl). rewrite !filter_cons.
    repeat case_decide; simpl; lia.
Qed.

Lemma list_remove_None (x : nat) (l : list nat) :
  list_remove x l = None ↔ x ∉ l.
Proof.
  induction l as [|y l IH].
  - split; [intros _; apply not_elem_of_nil|done].
  - cbn [list_remove]. rewrite not_elem_of_cons.
    destruct (decide (y = x)) as [->|Hne].
    + split; [done|]. by intros [? _].
    + destruct (list_remove x l) as [l0|]; simpl.
      * split; [done|]. intros [_ Hx]. by apply IH in Hx.
      * split; [|done]. intros _. split; [done|]. by apply IH.
Qed.

Lemma init_process `{Qstylish} `{StoreDefaults} (p : process)
    (caller : dict obj) (user_settings : dict pyval) (kwargs : dict obj) :
  refs (PandasGui_init p caller user_settings kwargs).1
    = refs p ++ [next_id p] ∧
  next_id (PandasGui_init p caller user_settings kwargs).1 = S (next_id p) ∧
  ∀ win, (PandasGui_init p caller user_settings kwargs).2 = Ok win →
         self_id win = next_id p.
Proof.
  unfold PandasGui_init.
  destruct (apply_settings user_settings default_settings) as [st|e];
    [|done].
  cbn zeta.
  destruct (init_ui_preserves (mkGui (next_id p) (mkStore [] None st) ""))
    as (_ & _ & _ & Hid).
  destruct (truthy _); simpl; (split_and!; [done|done|]);
    by intros win [= <-].
Qed.

(** One event other than the close of [w] keeps the number of times an
    already allocated [w] is listed. *)
Lemma gui_step_occurrences `{Qstylish} `{StoreDefaults} (p : process)
    (ev : gui_event) (w : nat) :
  w < next_id p → ev ≠ Close w →
  occurrences w (refs (gui_step p ev)) = occurrences w (refs p) ∧
  w < next_id (gui_step p ev).
Proof.
  intros Hw Hev. destruct ev as [caller us kw|x]; simpl.
  - destruct (init_process p caller us kw) as (-> & -> & _).
    rewrite occurrences_snoc, decide_False by lia. lia.
  - unfold closeEvent. destruct (list_remove x (refs p)) as [l|] eqn:Hl;
      simpl; [|done].
    rewrite (list_remove_occurrences x w _ _ Hl).
    rewrite decide_False by congruence. lia.
Qed.

Lemma gui_run_occurrences `{Qstylish} `{StoreDefaults} (p : process)
    (evs : list gui_event) (w : nat) :
  w < next_id p → Close w ∉ evs →
  occurrences w (refs (gui_run p evs)) = occurrences w (refs p) ∧
  w < next_id (gui_run p evs).
Proof.
  unfold gui_run. revert p.
  induction evs as [|ev evs IH]; intros p Hw Hevs; simpl; [done|].
  apply not_elem_of_cons in Hevs as [Hev Hevs].
  destruct (gui_step_occurrences p ev w) as [Hocc Hlt]; [done|done|].
  destruct (IH (gui_step p ev)) as [Hocc' Hlt']; [done|done|].
  split; [congruence|done].
Qed.

(** Once an allocated [w] is not listed, no event lists it again. *)
Lemma gui_run_absent `{Qstylish} `{StoreDefaults} (p : process)
    (evs : list gui_event) (w : nat) :
  w < next_id p → occurrences w (refs p) = 0 →
  occurrences w (refs (gui_run p evs)) = 0.
Proof.
  unfold gui_run. revert p.
  induction evs as [|ev evs IH]; intros p Hw Hocc; simpl; [done|].
  destruct (decide (ev = Close w)) as [->|Hev].
  - apply IH; simpl; unfold closeEvent.
    + by destruct (list_remove w (refs p)).
    + assert (list_remove w (refs p) = None) as ->; [|done].
      by apply list_remove_None, occurrences_zero.
  - destruct (gui_step_occurrences p ev w) as [Hocc' Hlt]; [done|done|].
    apply IH; [done|congruence].
Qed.

Lemma gui_run_fresh `{Qstylish} `{StoreDefaults} (evs : list gui_event)
    (p : process) :
  (∀ x, x ∈ refs p → x < next_id p) →
  ∀ x, x ∈ refs (gui_run p evs) → x < next_id (gui_run p evs).
Proof.
  unfold gui_run. revert p.
  induction evs as [|ev evs IH]; intros p Hp; simpl; [done|].
  apply IH. destruct ev as [caller us kw|w]; simpl.
  - destruct (init_process p caller us kw) as (-> & -> & _).
    intros x [Hx|Hx]%elem_of_app.
    + apply Hp in Hx. lia.
    + apply list_elem_of_singleton in Hx as ->. lia.
  - unfold closeEvent. destruct (list_remove w (refs p)) as [l|] eqn:Hl;
      simpl; [|done].
    intros x Hx. apply Hp.
    destruct (decide (x ∈ refs p)) as [|Hnin]; [done|].
    apply occurrences_zero in Hnin.
    rewrite (list_remove_occurrences w x _ _ Hl) in Hnin.
    assert (occurrences x l = 0) as Hz by lia.
    by apply occurrences_zero in Hz.
Qed.

(** C8: in any run of the module, a window constructed after the events
    [before] gets the identity [w]; it is not in [refs] before, it is in
    [refs] exactly once after its construction and after any further
    events that do not close it, and once its close event has run it is
    not in [refs], whatever happens afterwards. *)
Theorem refs_tracks_open_windows `{Qstylish} `{StoreDefaults}
    (before during after : list gui_event) (caller : dict obj)
    (user_settings : dict pyval) (kwargs : dict obj) :
  let p0 := gui_run initial_process before in
  let w := next_id p0 in
  let construct := Construct caller user_settings kwargs in
  Close w ∉ during →
  (∀ win, (PandasGui_init p0 caller user_settings kwargs).2 = Ok win →
          self_id win = w) ∧
  occurrences w (refs p0) = 0 ∧
  occurrences w (refs (gui_run p0 (construct :: during))) = 1 ∧
  w ∈ refs (gui_run p0 (construct :: during)) ∧
  occurrences w
    (refs (gui_run p0 (construct :: during ++ [Close w]))) = 0 ∧
  w ∉ refs (gui_run p0 (construct :: during ++ Close w :: after)).
Proof.
  intros p0 w construct Hduring.
  assert (occurrences w (refs p0) = 0) as Hfresh.
  { apply occurrences_zero. intros Hin.
    apply (gui_run_fresh before initial_process) in Hin.
    - fold p0 in Hin. fold w in Hin. lia.
    - intros x Hx. by apply elem_of_nil in Hx. }
  destruct (init_process p0 caller user_settings kwargs)
    as (Hrefs & Hnext & Hid).
  set (p1 := gui_step p0 construct).
  assert (occurrences w (refs p1) = 1 ∧ w < next_id p1) as [Hone Hlt].
  { unfold p1. simpl. rewrite Hrefs, Hnext, occurrences_snoc.
    rewrite decide_True by done. rewrite Hfresh.
    split; [done|]. unfold w. lia. }
  destruct (gui_run_occurrences p1 during w Hlt Hduring) as [Hocc Hlt'].
  assert (occurrences w (refs (gui_step (gui_run p1 during) (Close w))) = 0
          ∧ w < next_id (gui_step (gui_run p1 during) (Close w)))
    as [Hclosed Hlt''].
  { simpl. unfold closeEvent.
    destruct (list_remove w (refs (gui_run p1 during))) as [l|] eqn:Hl; simpl.
    - pose proof (list_remove_occurrences w w _ _ Hl) as Hr.
      rewrite decide_True in Hr by done. split; [lia|done].
    - apply list_remove_None, occurrences_zero in Hl. lia. }
  split_and!; [done|done| | | |].
  - change (gui_run p0 (construct :: during)) with (gui_run p1 during).
    congruence.
  - change (gui_run p0 (construct :: during)) with (gui_run p1 during).
    destruct (decide (w ∈ refs (gui_run p1 during))) as [|Hnin]; [done|].
    apply occurrences_zero in Hnin. lia.
  - change (gui_run p0 (construct :: during ++ [Close w]))
      with (gui_run p1 (during ++ [Close w])).
    unfold gui_run. by rewrite foldl_app.
  - apply occurrences_zero.
    change (gui_run p0 (construct :: during ++ Close w :: after))
      with (gui_run p1 (during ++ Close w :: after)).
    unfold gui_run. rewrite foldl_app. simpl.
    by apply gui_run_absent.
Qed.

Lemma refs_tracks_open_windows_witness :
  let sheets := {| qstylish_dark := "QWidget { color: white }";
                   qstylish_light := "QWidget { color: black }" |} in
  let defaults :=
    {| default_settings :=
         mkSettings (VBool false) (VStr "light") (VStr "Fusion") [] |} in
  refs (@gui_run sheets defaults initial_process
          [Construct [] [] []; Construct [] [] [("df", 1)];
           Close 0; Construct [] [] []]) = [1; 2] ∧
  1 ∉ refs (@gui_run sheets defaults initial_process
              [Construct [] [] []; Construct [] [] [("df", 1)];
               Close 0; Construct [] [] []; Close 1; Construct [] [] []]).
Proof.
  intros sheets defaults. split; [reflexivity|].
  destruct (@refs_tracks_open_windows sheets defaults
              [Construct [] [] []] [Close 0; Construct [] [] []]
              [Construct [] [] []] [] [] [("df", 1)])
    as (_ & _ & _ & _ & _ & Hclosed).
  - compute_done.
  - exact Hclosed.
Defined.

(** * Further properties *)

(** ** [show]: the merged mapping *)

Lemma dict_set_fresh {V} (k : string) (v : V) (d : dict V) :
  k ∉ dict_keys d → dict_set k v d = d ++ [(k, v)].
Proof.
  unfold dict_keys. induction d as [|[k' v'] d IH]; intros Hk; [done|].
  rewrite fmap_cons in Hk. apply not_elem_of_cons in Hk as [Hne Hk].
  cbn [dict_set]. rewrite decide_False by done. by rewrite IH.
Qed.

Lemma dict_update_disjoint {V} (d ws : dict V) :
  NoDup ws.*1 → (∀ k, k ∈ ws.*1 → k ∉ dict_keys d) →
  dict_update d ws = d ++ ws.
Proof.
  unfold dict_update. revert d.
  induction ws as [|[k v] ws IH]; intros d Hnd Hdis; simpl.
  - by rewrite app_nil_r.
  - rewrite fmap_cons in Hnd. apply NoDup_cons in Hnd as [Hk Hnd].
    rewrite dict_set_fresh by (apply Hdis; left).
    rewrite IH; [by rewrite <-app_assoc|done|].
    intros k' Hk'. unfold dict_keys. rewrite fmap_app, elem_of_app.
    intros [Hin|Hin].
    + revert Hin. apply Hdis. by right.
    + apply list_elem_of_singleton in Hin. simpl in Hin. by subst.
Qed.

Lemma filter_ext_in {A} (P Q : A → Prop) `{!∀ x, Decision (P x)}
    `{!∀ x, Decision (Q x)} (l : list A) :
  (∀ x, x ∈ l → P x ↔ Q x) → filter P l = filter Q l.
Proof.
  induction l as [|a l IH]; intros HPQ; [done|].
  rewrite !filter_cons, IH by (intros x Hx; apply HPQ; by right).
  destruct (decide (P a)) as [HP|HP], (decide (Q a)) as [HQ|HQ];
    try done; exfalso.
  - apply HQ, (HPQ a); [left|done].
  - apply HP, (HPQ a); [left|done].
Qed.

Lemma dict_update_keys {V} (d ws : dict V) :
  NoDup ws.*1 →
  dict_keys (dict_update d ws) =
  dict_keys d ++ filter (λ k, k ∉ dict_keys d) ws.*1.
Proof.
  unfold dict_update. revert d.
  induction ws as [|[k v] ws IH]; intros d Hnd; simpl.
  - by rewrite app_nil_r.
  - apply NoDup_cons in Hnd as [Hk Hnd].
    rewrite IH, dict_keys_set by done. rewrite filter_cons. simpl.
    destruct (decide (k ∈ dict_keys d)) as [Hin|Hnin].
    + by rewrite decide_False by tauto.
    + rewrite decide_True by done. rewrite <-app_assoc. simpl. do 2 f_equal.
      apply filter_ext_in. intros x Hx.
      rewrite elem_of_app, list_elem_of_singleton. split; [tauto|].
      intros Hnx [?|Hxk]; [done|]. by subst.
Qed.

Lemma existsb_elem_of (l l' : list string) :
  existsb (λ key, bool_decide (key ∈ l')) l = true ↔
  ∃ name, name ∈ l ∧ name ∈ l'.
Proof.
  rewrite existsb_exists. split.
  - intros (x & Hx & Hb). exists x.
    split; [by apply list_elem_of_In|by apply bool_decide_eq_true_1 in Hb].
  - intros (x & Hx & Hb). exists x.
    split; [by apply list_elem_of_In|by apply bool_decide_eq_true_2].
Qed.

(** X1: [show] logs its warning exactly when some inferred name is also a
    keyword name; otherwise it logs nothing, and the mapping handed to the
    window is the keyword arguments followed by the inferred entries, all
    of them kept as they are. *)
Theorem show_warns_iff_collision (args : list obj) (scope kwargs : dict obj) :
  let r := show args scope kwargs in
  let collision := ∃ name, name ∈ dict_keys (show_dataframes scope args) ∧
                           name ∈ dict_keys kwargs in
  (show_log r = [duplicate_warning] ↔ collision) ∧
  (show_log r = [] ↔ ¬ collision) ∧
  (¬ collision → show_kwargs r = kwargs ++ show_dataframes scope args).
Proof.
  simpl.
  pose proof (existsb_elem_of (dict_keys (show_dataframes scope args))
                (dict_keys kwargs)) as Hex.
  destruct (existsb _ _) eqn:He.
  - assert (∃ name, name ∈ dict_keys (show_dataframes scope args) ∧
                    name ∈ dict_keys kwargs) as Hc by by apply Hex.
    split_and!; [done|split; [done|by intros []]|by intros []].
  - assert (¬ ∃ name, name ∈ dict_keys (show_dataframes scope args) ∧
                      name ∈ dict_keys kwargs) as Hc.
    { intros Hc. apply Hex in Hc. congruence. }
    split_and!; [split; [done|by intros ?]|done|].
    intros _. apply dict_update_disjoint; [apply show_dataframes_NoDup|].
    intros k Hk Hk'. apply Hc. by exists k.
Qed.

Lemma show_warns_iff_collision_witness :
  show_kwargs (show [3; 10] [("a", 3)] [("c", 5)]) =
  [("c", 5); ("a", 3); ("untitled_1", 10)] ∧
  show_log (show [3; 10] [("a", 3)] [("c", 5)]) = [].
Proof.
  destruct (show_warns_iff_collision [3; 10] [("a", 3)] [("c", 5)])
    as (_ & Hlog & Hkw).
  assert (¬ ∃ name, name ∈ dict_keys (show_dataframes [("a", 3)] [3; 10]) ∧
                    name ∈ dict_keys [("c", 5)]) as Hfree.
  { intros (name & Hdf & Hname).
    apply list_elem_of_singleton in Hname as ->. revert Hdf. compute_done. }
  split; [by rewrite Hkw|by apply Hlog].
Defined.

(** X2: in the mapping [show] hands to the window the keyword names come
    first, in their own order, followed by the inferred names that are not
    keyword names, in the order in which they were first assigned. *)
Theorem show_key_order (args : list obj) (scope kwargs : dict obj) :
  dict_keys (show_kwargs (show args scope kwargs)) =
  dict_keys kwargs ++
  filter (λ k, k ∉ dict_keys kwargs) (dict_keys (show_dataframes scope args)).
Proof. simpl. apply dict_update_keys, show_dataframes_NoDup. Qed.

Lemma resolved_unbound (scope : dict obj) (args : list obj) (n : nat) :
  Forall (λ o, scan_scope scope o = None) args →
  resolved scope args n = zip (untitled <$> seq n (length args)) args.
Proof.
  intros Hargs. revert n.
  induction Hargs as [|o rest Ho Hrest IH]; intros n; [done|].
  rewrite resolved_cons. unfold choose_name. rewrite Ho. simpl.
  by rewrite IH.
Qed.

(** X3: when no positional payload is bound to a variable of the calling
    scope, the inferred mapping names the payloads [untitled_1],
    [untitled_2], ... in call order and loses none of them. *)
Theorem show_all_unbound (scope : dict obj) (args : list obj) :
  (∀ o, o ∈ args → scan_scope scope o = None) →
  show_dataframes scope args =
  zip (untitled <$> seq 1 (length args)) args.
Proof.
  intros Hargs. apply Forall_forall in Hargs.
  rewrite show_dataframes_resolved, (resolved_unbound _ _ _ Hargs).
  apply dict_update_disjoint.
  - rewrite fst_zip by (rewrite length_fmap, length_seq; lia).
    apply NoDup_fmap_2; [apply _|apply NoDup_seq].
  - intros k _. apply not_elem_of_nil.
Qed.

Lemma show_all_unbound_witness :
  show_dataframes [("df", 3)] [10; 11; 10] =
  [("untitled_1", 10); ("untitled_2", 11); ("untitled_3", 10)].
Proof.
  rewrite show_all_unbound; [reflexivity|].
  intros o Ho. apply elem_of_cons in Ho as [->|Ho]; [reflexivity|].
  apply elem_of_cons in Ho as [->|Ho]; [reflexivity|].
  apply list_elem_of_singleton in Ho as ->. reflexivity.
Defined.

(** X4: when the names given to the positional payloads are pairwise
    distinct, the inferred mapping is the list of (name, payload) pairs in
    call order: every payload is kept. *)
Theorem show_distinct_names_keep_all (scope : dict obj) (args : list obj) :
  NoDup (resolved_names scope args) →
  show_dataframes scope args = zip (resolved_names scope args) args.
Proof.
  intros Hnd. rewrite show_dataframes_resolved.
  rewrite dict_update_disjoint; [|done|intros k _; apply not_elem_of_nil].
  simpl. unfold resolved_names.
  rewrite <-(resolved_snd scope args 1) at 3. by rewrite zip_fst_snd.
Qed.

Lemma show_distinct_names_keep_all_witness :
  show_dataframes [("a", 3); ("b", 4)] [4; 9; 3] =
  [("b", 4); ("untitled_1", 9); ("a", 3)].
Proof.
  rewrite show_distinct_names_keep_all; [reflexivity|].
  compute_done.
Defined.

(** X5: when several positional payloads are given the same name, the
    mapping binds that name to the last of them: a payload is found under
    its name as soon as no later payload of the call gets the same name. *)
Theorem show_last_payload_wins (scope : dict obj) (args : list obj)
    (i : nat) (o : obj) (N : string) :
  args !! i = Some o →
  resolved_names scope args !! i = Some N →
  (∀ j, i < j → resolved_names scope args !! j ≠ Some N) →
  dict_get N (show_dataframes scope args) = Some o.
Proof.
  intros Hi HN Hlater. rewrite show_dataframes_get.
  apply (last_write_lookup _ _ _ i); [|done].
  unfold resolved_names in HN.
  rewrite list_lookup_fmap, (resolved_lookup _ _ _ _ _ Hi) in HN.
  rewrite (resolved_lookup _ _ _ _ _ Hi).
  set (c := choose_name _ _ _) in *. simpl in HN. by injection HN as ->.
Qed.

Lemma show_last_payload_wins_witness :
  dict_get "untitled_1" (show_dataframes [("untitled_1", 3)] [3; 9]) =
  Some 9.
Proof.
  apply (show_last_payload_wins _ _ 1); [reflexivity|reflexivity|].
  intros j Hj. destruct j as [|[|j]]; [lia|lia|]. by vm_compute.
Defined.

(** ** Themes and construction *)

(** X6: switching to one of the three known themes overwrites whatever an
    earlier [set_theme] did: the window is the same as if only the last
    switch had happened (in particular, switching twice to the same theme
    is switching once), and the stored theme is then the name given. *)
Theorem set_theme_last_wins `{Qstylish} (n m : string) (w : PandasGui) :
  m ∈ ["classic"; "dark"; "light"] →
  set_theme m (set_theme n w) = set_theme m w ∧
  theme (settings (store (set_theme m w))) = VStr m.
Proof.
  intros Hm. unfold set_theme.
  repeat apply elem_of_cons in Hm as [->|Hm];
    [| | |by apply elem_of_nil in Hm];
    simpl; (split; [|done]); by repeat case_decide.
Qed.

Lemma set_theme_last_wins_witness :
  let sheets := {| qstylish_dark := "QWidget { color: white }";
                   qstylish_light := "QWidget { color: black }" |} in
  let w := mkGui 0
             (mkStore [] None
                (mkSettings (VBool false) (VStr "classic") (VStr "Fusion") []))
             "" in
  @set_theme sheets "light" (@set_theme sheets "dark" w) =
  @set_theme sheets "light" w.
Proof.
  intros sheets w.
  destruct (@set_theme_last_wins sheets "dark" "light" w) as [Hw _];
    [|exact Hw].
  do 2 right. left.
Defined.

Lemma init_ui_applies_stored_theme_aux `{Qstylish} (w : PandasGui) :
  store (init_ui w) = store w ∧
  styleSheet (init_ui w) =
    match theme (settings (store w)) with
    | VStr s =>
        if decide (s = "light") then qstylish_light
        else if decide (s = "dark") then qstylish_dark
        else if decide (s = "classic") then ""
        else styleSheet w
    | _ => styleSheet w
    end.
Proof.
  destruct w as [id [ents sel [b t sty oth]] sheet].
  destruct t as [tb|s|tz|]; [done| |done|done].
  unfold init_ui. cbn [foldl store settings theme theme_is].
  destruct (decide (s = "light")) as [->|Hl]; [done|].
  rewrite (bool_decide_eq_false_2 ("light" = s)) by done.
  cbn [store settings theme theme_is].
  destruct (decide (s = "dark")) as [->|Hd]; [done|].
  rewrite (bool_decide_eq_false_2 ("dark" = s)) by done.
  cbn [store settings theme theme_is].
  destruct (decide (s = "classic")) as [->|Hc]; [done|].
  by rewrite (bool_decide_eq_false_2 ("classic" = s)).
Qed.

(** X7: [init_ui], through the theme menu, applies the stored theme and
    nothing else: the store is unchanged, and the style sheet becomes the
    one of the stored theme when that is [light], [dark] or [classic], and
    is left alone for any other value. *)
Theorem init_ui_applies_stored_theme `{Qstylish} (w : PandasGui) :
  store (init_ui w) = store w ∧
  self_id (init_ui w) = self_id w ∧
  styleSheet (init_ui w) =
    match theme (settings (store w)) with
    | VStr s =>
        if decide (s = "light") then qstylish_light
        else if decide (s = "dark") then qstylish_dark
        else if decide (s = "classic") then ""
        else styleSheet w
    | _ => styleSheet w
    end.
Proof.
  destruct (init_ui_applies_stored_theme_aux w) as [Hstore Hsheet].
  destruct (init_ui_preserves w) as (_ & _ & _ & Hid). done.
Qed.

Lemma settings_assign_theme_style (key : string) (value : pyval)
    (st st' : SettingsStore) :
  settings_assign key value st = Ok st' →
  theme st' = (if decide (key = "theme") then value else theme st) ∧
  style st' = (if decide (key = "style") then value else style st).
Proof.
  unfold settings_assign.
  repeat case_decide; subst; try discriminate; try (by intros [= <-]).
  destruct (dict_contains key (other_settings st)); [|done].
  by intros [= <-].
Qed.

Lemma apply_settings_fields (user_settings : dict pyval)
    (st0 st : SettingsStore) :
  apply_settings user_settings st0 = Ok st →
  theme st = default (theme st0) (last_write "theme" user_settings) ∧
  style st = default (style st0) (last_write "style" user_settings).
Proof.
  revert st0. induction user_settings as [|[k v] rest IH]; intros st0;
    cbn [apply_settings last_write].
  - by intros [= ->].
  - destruct (settings_assign k v st0) as [st1|e] eqn:Hassign; [|done].
    intros Hrest. destruct (IH _ Hrest) as [Ht Hs]. rewrite Ht, Hs.
    destruct (settings_assign_theme_style _ _ _ _ Hassign) as [Ht1 Hs1].
    rewrite Ht1, Hs1. split.
    + destruct (last_write "theme" rest); [done|].
      destruct (decide (k = "theme")); reflexivity.
    + destruct (last_write "style" rest); [done|].
      destruct (decide (k = "style")); reflexivity.
Qed.

(** X8: the settings the constructor works with are the defaults with the
    caller's values written over them: for [theme] and [style], the value
    is the caller's when the caller gave one and the default otherwise. *)
Theorem apply_settings_overrides_defaults (user_settings : dict pyval)
    (st0 st : SettingsStore) (v : pyval) :
  apply_settings user_settings st0 = Ok st →
  NoDup (dict_keys user_settings) →
  (dict_get "theme" user_settings = None → theme st = theme st0) ∧
  (dict_get "theme" user_settings = Some v → theme st = v) ∧
  (dict_get "style" user_settings = None → style st = style st0) ∧
  (dict_get "style" user_settings = Some v → style st = v) ∧
  (dict_get "block" user_settings = None → block st = block st0) ∧
  (dict_get "block" user_settings = Some v → block st = v).
Proof.
  intros Hst Hnd.
  destruct (apply_settings_fields _ _ _ Hst) as [Ht Hs].
  pose proof (apply_settings_block _ _ _ Hst) as Hb.
  assert (∀ k, last_write k user_settings = dict_get k user_settings) as Hlw.
  { intros k. destruct (last_write k user_settings) as [x|] eqn:Hl.
    - apply last_write_elem_of in Hl.
      by rewrite (dict_get_NoDup_elem_of _ _ _ Hnd Hl).
    - apply last_write_None in Hl. symmetry. by apply dict_get_None_keys. }
  rewrite Hlw in Ht, Hs, Hb.
  split_and!; intros Hget; rewrite Hget in *; done.
Qed.

Lemma apply_settings_overrides_defaults_witness :
  apply_settings [("theme", VStr "dark")]
    (mkSettings (VBool true) (VStr "light") (VStr "Fusion") []) =
  Ok (mkSettings (VBool true) (VStr "dark") (VStr "Fusion") []) ∧
  style (mkSettings (VBool true) (VStr "dark") (VStr "Fusion") []) =
  VStr "Fusion".
Proof.
  split; [reflexivity|].
  destruct (apply_settings_overrides_defaults [("theme", VStr "dark")]
              (mkSettings (VBool true) (VStr "light") (VStr "Fusion") [])
              (mkSettings (VBool true) (VStr "dark") (VStr "Fusion") [])
              VNone) as (_ & _ & Hstyle & _).
  - reflexivity.
  - compute_done.
  - by apply Hstyle.
Defined.

Lemma add_dataframes_entries (caller kwargs : dict obj) (s : Store) :
  entries (add_dataframes caller kwargs s) =
  dict_update (entries s) ((λ kv, (kv.1, mkEntry kv.2 [])) <$> kwargs).
Proof.
  unfold add_dataframes, dict_update. revert s.
  induction kwargs as [|[k v] kwargs IH]; intros s; simpl; [done|].
  by rewrite IH.
Qed.

Lemma dict_set_not_nil {V} (k : string) (v : V) (d : dict V) :
  dict_set k v d ≠ [].
Proof. destruct d as [|[k' v'] d]; simpl; [done|]. by case_decide. Qed.

Lemma add_dataframes_selected (caller kwargs : dict obj) (s : Store) :
  entries s ≠ [] →
  selected_name (add_dataframes caller kwargs s) = selected_name s.
Proof.
  unfold add_dataframes. revert s.
  induction kwargs as [|[k v] kwargs IH]; intros s Hs; simpl; [done|].
  rewrite IH; simpl.
  - by destruct (entries s).
  - apply dict_set_not_nil.
Qed.

(** X9: a window constructed with accepted settings and keyword datasets
    holds exactly those datasets, in the order given, each with an empty
    history; the first one is selected, and nothing is selected when no
    dataset was given. *)
Theorem init_holds_kwargs `{Qstylish} `{StoreDefaults} (p : process)
    (caller : dict obj) (user_settings : dict pyval) (kwargs : dict obj)
    (st : SettingsStore) :
  apply_settings user_settings default_settings = Ok st →
  NoDup (dict_keys kwargs) →
  ∃ p' w,
    PandasGui_init p caller user_settings kwargs = (p', Ok w) ∧
    entries (store w) = (λ kv, (kv.1, mkEntry kv.2 [])) <$> kwargs ∧
    dict_keys (entries (store w)) = dict_keys kwargs ∧
    selected_name (store w) = head (dict_keys kwargs).
Proof.
  intros Hst Hnd. unfold PandasGui_init. rewrite Hst. cbn zeta.
  set (w0 := mkGui (next_id p) (mkStore [] None st) "").
  destruct (init_ui_preserves w0) as (_ & Hents & Hsel & _).
  set (s1 := add_dataframes caller kwargs (store (init_ui w0))).
  assert (entries s1 = (λ kv, (kv.1, mkEntry kv.2 [])) <$> kwargs) as Hs1.
  { unfold s1. rewrite add_dataframes_entries, Hents. simpl.
    apply dict_update_disjoint.
    - by rewrite <-list_fmap_compose.
    - intros k _. apply not_elem_of_nil. }
  assert (dict_keys (entries s1) = dict_keys kwargs) as Hkeys.
  { rewrite Hs1. unfold dict_keys. by rewrite <-list_fmap_compose. }
  assert (entries (select_first s1) = entries s1 ∧
          selected_name (select_first s1) = head (dict_keys kwargs))
    as [Hents' Hsel'].
  { unfold select_first. rewrite Hkeys.
    destruct kwargs as [|[k v] kwargs]; simpl.
    - split; [done|]. unfold s1, add_dataframes. simpl. by rewrite Hsel.
    - unfold select, dict_contains.
      rewrite bool_decide_eq_true_2; [done|]. rewrite Hkeys. left. }
  destruct (truthy _); eexists _, _; (split; [reflexivity|]); simpl;
    rewrite Hents', Hsel'; by rewrite <-Hkeys, Hs1.
Qed.

Lemma init_holds_kwargs_witness :
  let sheets := {| qstylish_dark := "QWidget { color: white }";
                   qstylish_light := "QWidget { color: black }" |} in
  let defaults :=
    {| default_settings :=
         mkSettings (VBool false) (VStr "light") (VStr "Fusion") [] |} in
  ∃ p' w,
    @PandasGui_init sheets defaults initial_process [] []
      [("sales", 4); ("stock", 7)] = (p', Ok w) ∧
    entries (store w) = [("sales", mkEntry 4 []); ("stock", mkEntry 7 [])] ∧
    selected_name (store w) = Some "sales".
Proof.
  intros sheets defaults.
  destruct (@init_holds_kwargs sheets defaults initial_process [] []
              [("sales", 4); ("stock", 7)]
              (mkSettings (VBool false) (VStr "light") (VStr "Fusion") []))
    as (p' & w & Hrun & Hents & _ & Hsel).
  - reflexivity.
  - compute_done.
  - by exists p', w.
Defined.

(** X10: the style sheet of a freshly constructed window is the one of its
    theme setting: the dark or the light sheet for [dark] and [light], the
    empty sheet for [classic] and for any other value; the theme setting
    itself is the caller's value when one was given, the default
    otherwise. *)
Theorem init_style_sheet `{Qstylish} `{StoreDefaults} (p : process)
    (caller : dict obj) (user_settings : dict pyval) (kwargs : dict obj)
    (st : SettingsStore) :
  apply_settings user_settings default_settings = Ok st →
  ∃ p' w,
    PandasGui_init p caller user_settings kwargs = (p', Ok w) ∧
    theme (settings (store w)) = theme st ∧
    theme st =
      default (theme default_settings) (last_write "theme" user_settings) ∧
    (theme st = VStr "dark" → styleSheet w = qstylish_dark) ∧
    (theme st = VStr "light" → styleSheet w = qstylish_light) ∧
    (theme st ≠ VStr "dark" → theme st ≠ VStr "light" → styleSheet w = "").
Proof.
  intros Hst. unfold PandasGui_init. rewrite Hst. cbn zeta.
  set (w0 := mkGui (next_id p) (mkStore [] None st) "").
  destruct (init_ui_applies_stored_theme_aux w0) as (Hstore & Hsheet).
  destruct (apply_settings_fields _ _ _ Hst) as [Htheme _].
  set (wf := mkGui _ _ _).
  assert (theme (settings (store wf)) = theme st) as Hth.
  { unfold wf. simpl.
    by rewrite select_first_settings, add_dataframes_settings, Hstore. }
  assert (styleSheet wf =
          match theme st with
          | VStr s =>
              if decide (s = "light") then qstylish_light
              else if decide (s = "dark") then qstylish_dark
              else ""
          | _ => ""
          end) as Hsh.
  { unfold wf. simpl. rewrite Hsheet. simpl.
    destruct (theme st); try done. by repeat case_decide. }
  assert ((theme st = VStr "dark" → styleSheet wf = qstylish_dark) ∧
          (theme st = VStr "light" → styleSheet wf = qstylish_light) ∧
          (theme st ≠ VStr "dark" → theme st ≠ VStr "light" →
           styleSheet wf = "")) as Hfin.
  { rewrite Hsh. split_and!.
    - by intros ->.
    - by intros ->.
    - intros Hd Hl. destruct (theme st) as [?|s|?|]; try done.
      repeat case_decide; by subst. }
  destruct (truthy _); eexists _, wf; (split; [reflexivity|]); done.
Qed.

Lemma init_style_sheet_witness :
  let sheets := {| qstylish_dark := "QWidget { color: white }";
                   qstylish_light := "QWidget { color: black }" |} in
  let defaults :=
    {| default_settings :=
         mkSettings (VBool false) (VStr "light") (VStr "Fusion") [] |} in
  ∃ p' w,
    @PandasGui_init sheets defaults initial_process []
      [("theme", VStr "dark")] [("df", 1)] = (p', Ok w) ∧
    styleSheet w = "QWidget { color: white }".
Proof.
  intros sheets defaults.
  destruct (@init_style_sheet sheets defaults initial_process []
              [("theme", VStr "dark")] [("df", 1)]
              (mkSettings (VBool false) (VStr "dark") (VStr "Fusion") []))
    as (p' & w & Hrun & _ & _ & Hdark & _).
  - reflexivity.
  - exists p', w. split; [done|]. by apply Hdark.
Defined.

(** X11: the window is put in [refs] before the caller's settings are
    applied, so a constructor that raises on them leaves the window
    registered: [refs] has gained the new window, and nothing was shown. *)
Theorem init_raise_stays_registered `{Qstylish} `{StoreDefaults} (p : process)
    (caller : dict obj) (user_settings : dict pyval) (kwargs : dict obj)
    (e : exn) :
  apply_settings user_settings default_settings = Raise e →
  let r := PandasGui_init p caller user_settings kwargs in
  r.2 = Raise e ∧
  refs r.1 = refs p ++ [next_id p] ∧
  occurrences (next_id p) (refs r.1) = S (occurrences (next_id p) (refs p)) ∧
  ui_trace r.1 = ui_trace p.
Proof.
  intros He. unfold PandasGui_init. rewrite He. simpl.
  split_and!; [done|done| |done].
  rewrite occurrences_snoc, decide_True by done. lia.
Qed.

Lemma init_raise_stays_registered_witness :
  let sheets := {| qstylish_dark := "QWidget { color: white }";
                   qstylish_light := "QWidget { color: black }" |} in
  let defaults :=
    {| default_settings :=
         mkSettings (VBool false) (VStr "light") (VStr "Fusion") [] |} in
  refs (@PandasGui_init sheets defaults initial_process []
          [("colour", VStr "red")] []).1 = [0].
Proof.
  intros sheets defaults.
  destruct (@init_raise_stays_registered sheets defaults initial_process []
              [("colour", VStr "red")] [] KeyError) as (_ & Hrefs & _).
  - reflexivity.
  - exact Hrefs.
Defined.

(** ** The registry [refs], continued *)

Lemma list_remove_first (x : nat) (l l' : list nat) :
  list_remove x l = Some l' →
  ∃ l1 l2, l = l1 ++ x :: l2 ∧ (x ∉ l1) ∧ l' = l1 ++ l2.
Proof.
  revert l'. induction l as [|y l IH]; intros l'; [done|].
  cbn [list_remove]. destruct (decide (y = x)) as [->|Hne].
  - intros [= ->]. exists [], l'. split_and!; [done| |done].
    apply not_elem_of_nil.
  - destruct (list_remove x l) as [l0|]; [|done].
    intros [= <-]. destruct (IH l0 eq_refl) as (l1 & l2 & -> & Hx & ->).
    exists (y :: l1), l2. split_and!; [done| |done].
    apply not_elem_of_cons. by split.
Qed.

(** X12: [closeEvent] of a window listed in [refs] returns and takes out
    its first listing, leaving every other entry in place and in order;
    [closeEvent] of a window that is not listed raises [ValueError] and
    changes nothing. *)
Theorem closeEvent_outcome (w : nat) (p : process) :
  (w ∈ refs p →
   ∃ l1 l2, refs p = l1 ++ w :: l2 ∧ (w ∉ l1) ∧
            closeEvent w p =
            (mkProcess (l1 ++ l2) (next_id p) (ui_trace p), Ok ())) ∧
  (w ∉ refs p → closeEvent w p = (p, Raise ValueError)).
Proof.
  unfold closeEvent. split.
  - intros Hin. destruct (list_remove w (refs p)) as [l|] eqn:Hl.
    + destruct (list_remove_first _ _ _ Hl) as (l1 & l2 & Hrefs & Hw & ->).
      by exists l1, l2.
    + by apply list_remove_None in Hl.
  - intros Hnin. by apply list_remove_None in Hnin as ->.
Qed.

Lemma closeEvent_outcome_witness :
  closeEvent 4 (mkProcess [2; 4; 5] 6 []) = (mkProcess [2; 5] 6 [], Ok ()) ∧
  closeEvent 3 (mkProcess [2; 4; 5] 6 []) =
  (mkProcess [2; 4; 5] 6 [], Raise ValueError).
Proof.
  destruct (closeEvent_outcome 3 (mkProcess [2; 4; 5] 6 [])) as [_ Hout].
  split; [reflexivity|]. apply Hout. compute_done.
Defined.

Lemma gui_step_sublist `{Qstylish} `{StoreDefaults} (p : process)
    (ev : gui_event) :
  refs p `sublist_of` seq 0 (next_id p) →
  refs (gui_step p ev) `sublist_of` seq 0 (next_id (gui_step p ev)).
Proof.
  intros Hp. destruct ev as [caller us kw|w]; simpl.
  - destruct (init_process p caller us kw) as (-> & -> & _).
    rewrite seq_S. simpl. by apply sublist_app.
  - unfold closeEvent. destruct (list_remove w (refs p)) as [l|] eqn:Hl;
      simpl; [|done].
    destruct (list_remove_first _ _ _ Hl) as (l1 & l2 & Hrefs & _ & ->).
    etrans; [|exact Hp]. rewrite Hrefs.
    apply sublist_app; [done|]. by apply sublist_cons.
Qed.

Lemma gui_run_sublist `{Qstylish} `{StoreDefaults} (evs : list gui_event)
    (p : process) :
  refs p `sublist_of` seq 0 (next_id p) →
  refs (gui_run p evs) `sublist_of` seq 0 (next_id (gui_run p evs)).
Proof.
  unfold gui_run. revert p.
  induction evs as [|ev evs IH]; intros p Hp; simpl; [done|].
  by apply IH, gui_step_sublist.
Qed.

Lemma gui_run_snoc `{Qstylish} `{StoreDefaults} (p : process)
    (evs : list gui_event) (ev : gui_event) :
  gui_run p (evs ++ [ev]) = gui_step (gui_run p evs) ev.
Proof. unfold gui_run. by rewrite foldl_app. Qed.

Lemma refs_elem_of_constructed `{Qstylish} `{StoreDefaults}
    (evs : list gui_event) (w : nat) :
  w ∈ refs (gui_run initial_process evs) →
  ∃ before caller us kw after,
    evs = before ++ Construct caller us kw :: after ∧
    next_id (gui_run initial_process before) = w ∧
    Close w ∉ after.
Proof.
  induction evs as [|ev evs IH] using rev_ind.
  - intros Hw. by apply elem_of_nil in Hw.
  - rewrite gui_run_snoc. set (p' := gui_run initial_process evs) in *.
    assert (NoDup (refs p')) as Hnd.
    { eapply sublist_NoDup; [apply NoDup_seq|].
      apply gui_run_sublist. simpl. constructor. }
    assert (w ∈ refs p' → ev ≠ Close w →
            ∃ before caller us kw after,
              evs ++ [ev] = before ++ Construct caller us kw :: after ∧
              next_id (gui_run initial_process before) = w ∧
              Close w ∉ after) as Hold.
    { intros Hw Hev.
      destruct (IH Hw) as (before & c & s & k & after & -> & Hid & Hafter).
      exists before, c, s, k, (after ++ [ev]). split_and!; [|done|].
      - by rewrite <-app_assoc.
      - rewrite elem_of_app, list_elem_of_singleton.
        intros [?|?]; [done|]. by apply Hev. }
    destruct ev as [caller us kw|x]; simpl.
    + destruct (init_process p' caller us kw) as (-> & _ & _).
      intros [Hw|Hw]%elem_of_app; [by apply Hold|].
      apply list_elem_of_singleton in Hw as ->.
      exists evs, caller, us, kw, []. split_and!; [done|done|].
      apply not_elem_of_nil.
    + unfold closeEvent.
      destruct (list_remove x (refs p')) as [l|] eqn:Hl; simpl.
      * destruct (list_remove_first _ _ _ Hl) as (l1 & l2 & Hrefs & Hx1 & ->).
        rewrite Hrefs in Hnd. apply NoDup_app in Hnd as (_ & _ & Hnd).
        apply NoDup_cons in Hnd as [Hx2 _].
        intros Hw. apply Hold.
        -- rewrite Hrefs. apply elem_of_app in Hw as [?|?];
             apply elem_of_app; [by left|right; by right].
        -- intros [= ->]. apply elem_of_app in Hw as [?|?]; done.
      * apply list_remove_None in Hl. intros Hw. apply Hold; [done|].
        by intros [= ->].
Qed.

(** X13: in every run of the module [refs] lists exactly the windows whose
    construction has begun and whose close event has not been run since,
    in the order of their construction and each of them once. *)
Theorem refs_in_construction_order `{Qstylish} `{StoreDefaults}
    (evs : list gui_event) :
  let p := gui_run initial_process evs in
  refs p `sublist_of` seq 0 (next_id p) ∧
  NoDup (refs p) ∧
  (∀ w, w ∈ refs p → w < next_id p) ∧
  (∀ w, w ∈ refs p ↔
        ∃ before caller us kw after,
          evs = before ++ Construct caller us kw :: after ∧
          next_id (gui_run initial_process before) = w ∧
          Close w ∉ after).
Proof.
  simpl.
  assert (refs (gui_run initial_process evs)
            `sublist_of` seq 0 (next_id (gui_run initial_process evs)))
    as Hsub by (apply gui_run_sublist; simpl; constructor).
  split_and!; [done| | |].
  - eapply sublist_NoDup; [apply NoDup_seq|done].
  - intros w Hw. eapply elem_of_sublist in Hw; [|done].
    apply elem_of_seq in Hw. lia.
  - intros w. split; [apply refs_elem_of_constructed|].
    intros (before & caller & us & kw & after & -> & <- & Hafter).
    set (p0 := gui_run initial_process before).
    assert (occurrences (next_id p0) (refs p0) = 0) as Hfresh.
    { apply occurrences_zero. intros Hin.
      apply (gui_run_fresh before initial_process) in Hin.
      - fold p0 in Hin. lia.
      - intros x Hx. by apply elem_of_nil in Hx. }
    destruct (init_process p0 caller us kw) as (Hrefs & Hnext & _).
    destruct (gui_run_occurrences
                (gui_step p0 (Construct caller us kw)) after (next_id p0))
      as [Hocc _]; [simpl; rewrite Hnext; lia|done|].
    assert (gui_run initial_process
              (before ++ Construct caller us kw :: after) =
            gui_run (gui_step p0 (Construct caller us kw)) after) as ->.
    { unfold gui_run, p0. by rewrite foldl_app. }
    destruct (decide (next_id p0 ∈
        refs (gui_run (gui_step p0 (Construct caller us kw)) after)))
      as [|Hnin]; [done|].
    apply occurrences_zero in Hnin. rewrite Hnin in Hocc.
    simpl in Hocc. rewrite Hrefs, occurrences_snoc in Hocc.
    rewrite decide_True in Hocc by done. lia.
Qed.

Lemma refs_in_construction_order_witness :
  let sheets := {| qstylish_dark := "QWidget { color: white }";
                   qstylish_light := "QWidget { color: black }" |} in
  let defaults :=
    {| default_settings :=
         mkSettings (VBool false) (VStr "light") (VStr "Fusion") [] |} in
  refs (@gui_run sheets defaults initial_process
          [Construct [] [] []; Construct [] [] []; Close 0; Close 0]) = [1] ∧
  0 ∉ refs (@gui_run sheets defaults initial_process
              [Construct [] [] []; Construct [] [] []; Close 0; Close 0]).
Proof.
  intros sheets defaults. split; [reflexivity|].
  destruct (@refs_in_construction_order sheets defaults
              [Construct [] [] []; Construct [] [] []; Close 0; Close 0])
    as (_ & _ & _ & Hopen).
  intros Hin. apply Hopen in Hin
    as (before & caller & us & kw & after & Hevs & Hid & Hafter).
  destruct before as [|e1 [|e2 before]]; simplify_eq/=.
  - apply Hafter. do 2 right. left.
  - destruct before as [|e3 [|e4 [|e5 before]]]; simplify_eq/=.
Defined.

(** X14: closing the same window a second time raises [ValueError]: in
    every run, right after the close event of [w] has run (whether it
    returned or raised), [closeEvent] of [w] raises and changes nothing. *)
Theorem close_twice_raises `{Qstylish} `{StoreDefaults}
    (evs : list gui_event) (w : nat) :
  let p := gui_run initial_process (evs ++ [Close w]) in
  closeEvent w p = (p, Raise ValueError) ∧ (w ∉ refs p).
Proof.
  simpl. unfold gui_run. rewrite foldl_app. simpl.
  fold (gui_run initial_process evs).
  set (p0 := gui_run initial_process evs).
  assert (NoDup (refs p0)) as Hnd.
  { eapply sublist_NoDup; [apply NoDup_seq|].
    apply gui_run_sublist. simpl. constructor. }
  assert (w ∉ refs (closeEvent w p0).1) as Hout.
  { unfold closeEvent.
    destruct (list_remove w (refs p0)) as [l|] eqn:Hl; simpl.
    - destruct (list_remove_first _ _ _ Hl) as (l1 & l2 & Hrefs & Hw & ->).
      rewrite Hrefs in Hnd. apply NoDup_app in Hnd as (_ & _ & Hnd).
      apply NoDup_cons in Hnd as [Hw2 _].
      rewrite elem_of_app. tauto.
    - by apply list_remove_None. }
  split; [|done].
  unfold closeEvent at 1. by apply list_remove_None in Hout as ->.
Qed.

(** ** [delete_selected_dataframes] *)

Lemma filter_all {A} (P : A → Prop) `{!∀ x, Decision (P x)} (l : list A) :
  (∀ x, x ∈ l → P x) → filter P l = l.
Proof.
  induction l as [|a l IH]; intros HP; [done|].
  rewrite filter_cons_True by (apply HP; left).
  rewrite IH; [done|]. intros x Hx. apply HP. by right.
Qed.

Lemma dict_del_filter {V} (k : string) (d : dict V) :
  NoDup (dict_keys d) → dict_del k d = filter (λ kv, kv.1 ≠ k) d.
Proof.
  unfold dict_keys. induction d as [|[k0 v0] d IH]; intros Hnd; [done|].
  rewrite fmap_cons in Hnd. apply NoDup_cons in Hnd as [Hk0 Hnd].
  cbn [dict_del]. destruct (decide (k0 = k)) as [->|Hne].
  - rewrite filter_cons_False by (simpl; tauto).
    symmetry. apply filter_all. intros [k1 v1] Hin Heq. simpl in Heq.
    subst k1. apply Hk0. apply list_elem_of_fmap. by exists (k, v1).
  - rewrite filter_cons_True by done. by rewrite IH.
Qed.

Lemma remove_present (name : string) (s : Store) :
  NoDup (dict_keys (entries s)) → name ∈ dict_keys (entries s) →
  remove name s =
  (mkStore (filter (λ kv, kv.1 ≠ name) (entries s))
     (if decide (selected_name s = Some name)
      then preceding name (dict_keys (entries s))
      else selected_name s)
     (settings s), Ok ()).
Proof.
  intros Hnd Hin. unfold remove, dict_contains.
  rewrite bool_decide_eq_true_2 by done. by rewrite dict_del_filter.
Qed.

Lemma remove_absent (name : string) (s : Store) :
  name ∉ dict_keys (entries s) → remove name s = (s, Raise NotFoundError).
Proof.
  intros Hnin. unfold remove, dict_contains.
  by rewrite bool_decide_eq_false_2.
Qed.

Lemma filter_keys_elem_of {V} (Q : string * V → Prop)
    `{!∀ x, Decision (Q x)} (d : dict V) (k : string) :
  k ∈ dict_keys (filter Q d) ↔ ∃ v, Q (k, v) ∧ (k, v) ∈ d.
Proof.
  unfold dict_keys. rewrite list_elem_of_fmap. split.
  - intros ([k' v] & -> & [HQ Hin]%list_elem_of_filter). by exists v.
  - intros (v & HQ & Hin). exists (k, v). split; [done|].
    by apply list_elem_of_filter.
Qed.

Lemma filter_keys_NoDup {V} (Q : string * V → Prop)
    `{!∀ x, Decision (Q x)} (d : dict V) :
  NoDup (dict_keys d) → NoDup (dict_keys (filter Q d)).
Proof.
  unfold dict_keys. induction d as [|[k v] d IH]; intros Hnd; [done|].
  rewrite fmap_cons in Hnd. apply NoDup_cons in Hnd as [Hk Hnd].
  rewrite filter_cons. case_decide; [|by apply IH].
  rewrite fmap_cons. apply NoDup_cons. split; [|by apply IH].
  simpl. intros Hin. apply Hk.
  apply (filter_keys_elem_of Q d k) in Hin as (v' & _ & Hin).
  apply list_elem_of_fmap. by exists (k, v').
Qed.

Lemma delete_selected_run (names : list string) (s : Store) :
  NoDup names →
  NoDup (dict_keys (entries s)) →
  (∀ n, n ∈ names → n ∈ dict_keys (entries s)) →
  ∃ s', delete_selected_dataframes names s = (s', Ok ()) ∧
        entries s' = filter (λ kv, kv.1 ∉ names) (entries s) ∧
        settings s' = settings s ∧
        ((∀ n, selected_name s = Some n → n ∉ names) →
         selected_name s' = selected_name s).
Proof.
  unfold delete_selected_dataframes. revert s.
  induction names as [|n rest IH]; intros s Hnames Hnd Hin.
  - exists s. split_and!; [done| |done|done].
    symmetry. apply filter_all. intros kv _. apply not_elem_of_nil.
  - apply NoDup_cons in Hnames as [Hn Hrest].
    rewrite foldM_cons.
    pose proof (remove_present n s Hnd (Hin n ltac:(left))) as Hrem.
    set (s1 := mkStore _ _ _) in Hrem.
    destruct (IH s1) as (s' & Hrun & Hents & Hset & Hsel); [done| | |].
    { unfold s1. simpl. by apply filter_keys_NoDup. }
    { intros m Hm. unfold s1. simpl. apply filter_keys_elem_of.
      assert (m ∈ dict_keys (entries s)) as Hms by (apply Hin; by right).
      apply list_elem_of_fmap in Hms as ([k v] & -> & Hkv).
      exists v. split; [|done]. simpl. by intros ->. }
    exists s'. split_and!; [|  |done|].
    + by rewrite (bind_Ok _ _ _ _ _ Hrem).
    + rewrite Hents. unfold s1. simpl. rewrite list_filter_filter.
      apply list_filter_iff. intros [k v]. simpl.
      rewrite not_elem_of_cons. tauto.
    + intros Hnot. rewrite Hsel.
      * unfold s1. simpl. rewrite decide_False; [done|].
        intros Heq. by apply (Hnot n); [|left].
      * unfold s1. simpl. intros m.
        rewrite decide_False.
        -- intros Hm. apply Hnot in Hm. by apply not_elem_of_cons in Hm as [_ ?].
        -- intros Heq. by apply (Hnot n); [|left].
Qed.

(** X15: deleting a selection of distinct names that are all in the store
    returns, and leaves exactly the entries that were not selected, in
    their order and with their content; the settings are untouched, and so
    is the current selection when it is not among the deleted names. *)
Theorem delete_selected_removes_exactly (names : list string) (s : Store) :
  NoDup names →
  NoDup (dict_keys (entries s)) →
  (∀ n, n ∈ names → n ∈ dict_keys (entries s)) →
  ∃ s', delete_selected_dataframes names s = (s', Ok ()) ∧
        entries s' = filter (λ kv, kv.1 ∉ names) (entries s) ∧
        settings s' = settings s ∧
        ((∀ n, selected_name s = Some n → n ∉ names) →
         selected_name s' = selected_name s).
Proof. apply delete_selected_run. Qed.

Lemma delete_selected_removes_exactly_witness :
  ∃ s', delete_selected_dataframes ["c"; "a"]
          (mkStore [("a", mkEntry 1 []); ("b", mkEntry 2 ["edit"]);
                    ("c", mkEntry 3 [])]
             (Some "b")
             (mkSettings (VBool true) (VStr "light") (VStr "Fusion") []))
        = (s', Ok ()) ∧
        entries s' = [("b", mkEntry 2 ["edit"])] ∧
        selected_name s' = Some "b".
Proof.
  destruct (delete_selected_removes_exactly ["c"; "a"]
              (mkStore [("a", mkEntry 1 []); ("b", mkEntry 2 ["edit"]);
                        ("c", mkEntry 3 [])]
                 (Some "b")
                 (mkSettings (VBool true) (VStr "light") (VStr "Fusion") [])))
    as (s' & Hrun & Hents & _ & Hsel).
  - compute_done.
  - compute_done.
  - intros n Hn. simpl.
    apply elem_of_cons in Hn as [->|Hn]; [compute_done|].
    apply list_elem_of_singleton in Hn as ->. compute_done.
  - exists s'. split_and!; [done|by rewrite Hents|].
    rewrite Hsel; [done|]. intros n [= <-]. compute_done.
Defined.

(** X16: the deletion stops at the first selected name that is not in the
    store any more (absent from the start, or already deleted because it
    is listed twice): it raises [NotFoundError], the names before it are
    deleted all the same, the names after it are not looked at. *)
Theorem delete_selected_stops_at_missing (pre post : list string)
    (x : string) (s : Store) :
  NoDup pre →
  NoDup (dict_keys (entries s)) →
  (∀ n, n ∈ pre → n ∈ dict_keys (entries s)) →
  x ∉ dict_keys (entries s) ∨ x ∈ pre →
  ∃ s', delete_selected_dataframes (pre ++ x :: post) s
        = (s', Raise NotFoundError) ∧
        entries s' = filter (λ kv, kv.1 ∉ pre) (entries s).
Proof.
  intros Hpre Hnd Hin Hx.
  destruct (delete_selected_run pre s) as (s' & Hrun & Hents & _);
    [done..|].
  exists s'. split; [|done].
  unfold delete_selected_dataframes in *.
  rewrite (foldM_app_Ok _ _ _ _ _ _ _ Hrun), foldM_cons.
  apply bind_Raise, remove_absent.
  rewrite Hents. intros Hk.
  apply filter_keys_elem_of in Hk as (v & Hk1 & Hk2). simpl in Hk1.
  destruct Hx as [Hx|Hx]; [|done].
  apply Hx, list_elem_of_fmap. by exists (x, v).
Qed.

Lemma delete_selected_stops_at_missing_witness :
  ∃ s', delete_selected_dataframes ["a"; "a"; "b"]
          (mkStore [("a", mkEntry 1 []); ("b", mkEntry 2 [])] (Some "b")
             (mkSettings (VBool true) (VStr "light") (VStr "Fusion") []))
        = (s', Raise NotFoundError) ∧
        entries s' = [("b", mkEntry 2 [])].
Proof.
  destruct (delete_selected_stops_at_missing ["a"] ["b"] "a"
              (mkStore [("a", mkEntry 1 []); ("b", mkEntry 2 [])] (Some "b")
                 (mkSettings (VBool true) (VStr "light") (VStr "Fusion") [])))
    as (s' & Hrun & Hents).
  - compute_done.
  - compute_done.
  - intros n Hn. apply list_elem_of_singleton in Hn as ->. compute_done.
  - right. left.
  - exists s'. split; [done|]. by rewrite Hents.
Defined.

(** X17: whatever names are selected and whether the deletion returns or
    raises, it leaves the store with unique names and a selection that is
    none or names an entry. *)
Theorem delete_selected_keeps_invariant (names : list string) (s : Store) :
  store_inv s → store_inv (delete_selected_dataframes names s).1.
Proof.
  unfold delete_selected_dataframes. revert s.
  induction names as [|n rest IH]; intros s Hs; [done|].
  rewrite foldM_cons. unfold mbind, M_bind.
  pose proof (remove_inv n s Hs) as Hrem.
  destruct (remove n s) as [s1 [[]|e]]; simpl in *; [by apply IH|done].
Qed.

Lemma delete_selected_keeps_invariant_witness :
  store_inv (delete_selected_dataframes ["b"; "zz"]
               (mkStore [("a", mkEntry 1 []); ("b", mkEntry 2 [])] (Some "b")
                  (mkSettings (VBool true) (VStr "light") (VStr "Fusion") []))).1.
Proof.
  apply delete_selected_keeps_invariant.
  split; [compute_done|]. simpl. compute_done.
Defined.

(** ** [refresh], in general *)

Lemma dict_keys_filter_ne {V} (x : string) (d : dict V) :
  dict_keys (filter (λ kv, kv.1 ≠ x) d) = filter (λ k, k ≠ x) (dict_keys d).
Proof.
  unfold dict_keys. induction d as [|[k v] d IH]; [done|].
  rewrite fmap_cons, !filter_cons. simpl.
  destruct (decide (k ≠ x)); [rewrite fmap_cons|]; by rewrite IH.
Qed.

Lemma remove_then_add_spec (x : string) (v : obj) (fl : dict obj)
    (s : Store) :
  NoDup (dict_keys (entries s)) → x ∈ dict_keys (entries s) →
  entries (remove_then_add x v fl s) =
    filter (λ kv, kv.1 ≠ x) (entries s) ++ [(x, mkEntry v [])] ∧
  dict_keys (entries (remove_then_add x v fl s)) =
    filter (λ k, k ≠ x) (dict_keys (entries s)) ++ [x] ∧
  NoDup (dict_keys (entries (remove_then_add x v fl s))) ∧
  (∀ k, k ∈ dict_keys (entries (remove_then_add x v fl s)) ↔
        k ∈ dict_keys (entries s)) ∧
  settings (remove_then_add x v fl s) = settings s ∧
  (selection_valid s → selection_valid (remove_then_add x v fl s)).
Proof.
  intros Hnd Hin.
  assert (entries (remove_then_add x v fl s) =
          filter (λ kv, kv.1 ≠ x) (entries s) ++ [(x, mkEntry v [])])
    as Hents.
  { unfold remove_then_add. rewrite remove_present by done. simpl.
    apply dict_set_fresh. rewrite dict_keys_filter_ne.
    intros [Hx _]%list_elem_of_filter. done. }
  assert (dict_keys (entries (remove_then_add x v fl s)) =
          filter (λ k, k ≠ x) (dict_keys (entries s)) ++ [x]) as Hkeys.
  { rewrite Hents. unfold dict_keys at 1. rewrite fmap_app. simpl.
    f_equal. apply dict_keys_filter_ne. }
  assert (store_inv (mkStore (entries s) None (settings s))) as Hinv0
    by by split.
  split_and!; [done|done| | | |].
  - rewrite remove_then_add_keys by done.
    apply NoDup_app. split_and!.
    + by apply dict_del_NoDup.
    + intros k Hk ->%list_elem_of_singleton.
      by apply dict_del_keys_elem_of in Hk as [? _].
    + apply NoDup_singleton.
  - intros k. rewrite Hkeys, elem_of_app, list_elem_of_filter,
      list_elem_of_singleton.
    destruct (decide (k = x)) as [->|Hne]; [tauto|]. tauto.
  - unfold remove_then_add. by rewrite remove_present.
  - intros Hsel. unfold remove_then_add.
    apply add_inv, remove_inv. by split.
Qed.

Lemma refresh_var_miss (fl : dict obj) (acc : list string) (x : string)
    (v : obj) (s : Store) :
  x ∉ dict_keys (entries s) → refresh_var fl acc (x, v) s = (s, Ok acc).
Proof. intros Hx. by apply refresh_name_skip. Qed.

Lemma refresh_vars_run (fl l : dict obj) (acc : list string) (s : Store) :
  NoDup (dict_keys (entries s)) →
  ∃ s', foldM (refresh_var fl) l acc s =
        (s', Ok (acc ++ filter (λ x, x ∈ dict_keys (entries s)) l.*1)) ∧
        NoDup (dict_keys (entries s')) ∧
        (∀ k, k ∈ dict_keys (entries s') ↔ k ∈ dict_keys (entries s)) ∧
        settings s' = settings s ∧
        (selection_valid s → selection_valid s').
Proof.
  revert acc s. induction l as [|[x v] l IH]; intros acc s Hnd.
  - exists s. simpl. by rewrite app_nil_r.
  - rewrite foldM_cons, fmap_cons, filter_cons. simpl.
    destruct (decide (x ∈ dict_keys (entries s))) as [Hx|Hx].
    + destruct (remove_then_add_spec x v fl s Hnd Hx)
        as (_ & _ & Hnd1 & Hmem1 & Hset1 & Hsel1).
      destruct (IH (acc ++ [x]) _ Hnd1)
        as (s' & Hrun & Hnd' & Hmem' & Hset' & Hsel').
      exists s'. split_and!; [|done| | |by auto].
      * rewrite (bind_Ok _ _ _ _ _ (refresh_var_hit fl acc x v s Hnd Hx)).
        rewrite Hrun, <-app_assoc.
        by rewrite (list_filter_iff _ (λ k, k ∈ dict_keys (entries s))
                      _ Hmem1).
      * intros k. by rewrite Hmem', Hmem1.
      * congruence.
    + destruct (IH acc s Hnd) as (s' & Hrun & Hnd' & Hmem' & Hset' & Hsel').
      exists s'. split_and!; [|done..].
      by rewrite (bind_Ok _ _ _ _ _ (refresh_var_miss fl acc x v s Hx)).
Qed.

(** X18: when no variable of the caller's frame names an entry of the
    store, [refresh] returns, leaves the store exactly as it was and
    reports that nothing matched. *)
Theorem refresh_without_match (fl : dict obj) (s : Store) :
  (∀ x v, (x, v) ∈ fl → x ∉ dict_keys (entries s)) →
  refresh fl s = (s, Ok "No matching DataFrames found to refresh").
Proof.
  intros Hfl. unfold refresh.
  by rewrite (bind_Ok _ _ _ _ _ (refresh_vars_skip fl fl [] s Hfl)).
Qed.

Lemma refresh_without_match_witness :
  refresh [("tmp", 8)]
    (mkStore [("a", mkEntry 1 ["edit"])] (Some "a")
       (mkSettings (VBool true) (VStr "light") (VStr "Fusion") [])) =
  (mkStore [("a", mkEntry 1 ["edit"])] (Some "a")
     (mkSettings (VBool true) (VStr "light") (VStr "Fusion") []),
   Ok "No matching DataFrames found to refresh").
Proof.
  apply refresh_without_match.
  intros x v Hx. apply list_elem_of_singleton in Hx as [= -> ->].
  compute_done.
Defined.

(** X19: on a store with unique names [refresh] never raises. It reports
    the caller's variables that name an entry, in frame order; the store
    afterwards has the same names as before (still unique), the same
    settings, and a valid selection if it had one. *)
Theorem refresh_returns (fl : dict obj) (s : Store) :
  NoDup (dict_keys (entries s)) →
  let refreshed := filter (λ x, x ∈ dict_keys (entries s)) fl.*1 in
  ∃ s', refresh fl s =
        (s', Ok (match refreshed with
                 | [] => "No matching DataFrames found to refresh"
                 | _ :: _ => "Refreshed " +:+ join_names refreshed
                 end)) ∧
        NoDup (dict_keys (entries s')) ∧
        (∀ k, k ∈ dict_keys (entries s') ↔ k ∈ dict_keys (entries s)) ∧
        settings s' = settings s ∧
        (selection_valid s → selection_valid s').
Proof.
  intros Hnd refreshed.
  destruct (refresh_vars_run fl fl [] s Hnd)
    as (s' & Hrun & Hnd' & Hmem & Hset & Hsel).
  exists s'. split_and!; [|done..].
  unfold refresh. by rewrite (bind_Ok _ _ _ _ _ Hrun).
Qed.

Lemma refresh_returns_witness :
  ∃ s', refresh [("b", 7); ("x", 8); ("a", 9)]
          (mkStore [("a", mkEntry 1 ["edit"]); ("b", mkEntry 2 [])]
             (Some "a")
             (mkSettings (VBool true) (VStr "light") (VStr "Fusion") []))
        = (s', Ok "Refreshed b, a").
Proof.
  destruct (refresh_returns [("b", 7); ("x", 8); ("a", 9)]
              (mkStore [("a", mkEntry 1 ["edit"]); ("b", mkEntry 2 [])]
                 (Some "a")
                 (mkSettings (VBool true) (VStr "light") (VStr "Fusion") [])))
    as (s' & Hrun & _).
  - compute_done.
  - exists s'. exact Hrun.
Defined.

Lemma last_write_NoDup {V} (k : string) (ws : list (string * V)) :
  NoDup ws.*1 → last_write k ws = dict_get k ws.
Proof.
  intros Hnd. destruct (last_write k ws) as [x|] eqn:Hl.
  - apply last_write_elem_of in Hl.
    by rewrite (dict_get_NoDup_elem_of _ _ _ Hnd Hl).
  - apply last_write_None in Hl. symmetry. by apply dict_get_None_keys.
Qed.

Lemma remove_then_add_get (x k : string) (v : obj) (fl : dict obj)
    (s : Store) :
  x ∈ dict_keys (entries s) →
  dict_get k (entries (remove_then_add x v fl s)) =
  if decide (x = k) then Some (mkEntry v []) else dict_get k (entries s).
Proof.
  intros Hx. unfold remove_then_add, remove, dict_contains.
  rewrite bool_decide_eq_true_2 by done. simpl.
  destruct (decide (x = k)) as [->|Hne].
  - apply dict_get_set_eq.
  - rewrite dict_get_set_ne by done. by apply dict_get_del_ne.
Qed.

Lemma refresh_state (fl : dict obj) (s : Store) :
  NoDup (dict_keys (entries s)) →
  (refresh fl s).1 = (foldM (refresh_var fl) fl [] s).1.
Proof.
  intros Hnd. destruct (refresh_vars_run fl fl [] s Hnd) as (s' & Hrun & _).
  unfold refresh. by rewrite (bind_Ok _ _ _ _ _ Hrun), Hrun.
Qed.

Lemma refresh_vars_get (fl l : dict obj) (acc : list string) (s : Store)
    (k : string) :
  NoDup (dict_keys (entries s)) → k ∈ dict_keys (entries s) →
  dict_get k (entries (foldM (refresh_var fl) l acc s).1) =
  match last_write k l with
  | Some v => Some (mkEntry v [])
  | None => dict_get k (entries s)
  end.
Proof.
  revert acc s. induction l as [|[x v] l IH]; intros acc s Hnd Hk; [done|].
  rewrite foldM_cons. cbn [last_write].
  destruct (decide (x ∈ dict_keys (entries s))) as [Hx|Hx].
  - destruct (remove_then_add_spec x v fl s Hnd Hx)
      as (_ & _ & Hnd1 & Hmem1 & _).
    rewrite (bind_Ok _ _ _ _ _ (refresh_var_hit fl acc x v s Hnd Hx)).
    rewrite IH by (done || by apply Hmem1).
    destruct (last_write k l); [done|].
    rewrite remove_then_add_get by done. by case_decide.
  - rewrite (bind_Ok _ _ _ _ _ (refresh_var_miss fl acc x v s Hx)).
    rewrite IH by done.
    destruct (last_write k l); [done|].
    rewrite decide_False; [done|]. by intros ->.
Qed.

Lemma refresh_vars_keys (fl l : dict obj) (acc : list string) (s : Store) :
  NoDup (dict_keys (entries s)) → NoDup l.*1 →
  dict_keys (entries (foldM (refresh_var fl) l acc s).1) =
  filter (λ k, k ∉ l.*1) (dict_keys (entries s)) ++
  filter (λ x, x ∈ dict_keys (entries s)) l.*1.
Proof.
  revert acc s. induction l as [|[x v] l IH]; intros acc s Hnd Hl.
  - simpl. rewrite app_nil_r. symmetry. apply filter_all.
    intros k _. apply not_elem_of_nil.
  - rewrite fmap_cons in Hl. apply NoDup_cons in Hl as [Hxl Hl].
    rewrite foldM_cons, fmap_cons. cbn [fst].
    destruct (decide (x ∈ dict_keys (entries s))) as [Hx|Hx].
    + destruct (remove_then_add_spec x v fl s Hnd Hx)
        as (_ & Hkeys1 & Hnd1 & Hmem1 & _).
      rewrite (bind_Ok _ _ _ _ _ (refresh_var_hit fl acc x v s Hnd Hx)).
      rewrite IH by done.
      rewrite (list_filter_iff _ (λ k, k ∈ dict_keys (entries s)) _ Hmem1).
      rewrite Hkeys1, filter_app, list_filter_filter.
      rewrite (filter_cons_True _ x []) by done.
      rewrite (filter_cons_True _ x l.*1) by done.
      rewrite filter_nil, <-app_assoc. simpl. f_equal.
      apply list_filter_iff. intros k. rewrite not_elem_of_cons. tauto.
    + rewrite (bind_Ok _ _ _ _ _ (refresh_var_miss fl acc x v s Hx)).
      rewrite IH by done.
      rewrite (filter_cons_False _ x l.*1) by tauto. f_equal.
      apply filter_ext_in. intros k Hk. rewrite not_elem_of_cons.
      split; [|tauto]. intros Hkl. split; [by intros ->|done].
Qed.

(** X20: after [refresh] on a store with unique names, every entry whose
    name is a variable of the caller's frame holds that variable's value
    and an empty history, and every other entry is exactly as before. *)
Theorem refresh_payloads (fl : dict obj) (s : Store) (k : string) :
  NoDup (dict_keys (entries s)) →
  NoDup (dict_keys fl) →
  k ∈ dict_keys (entries s) →
  dict_get k (entries (refresh fl s).1) =
  match dict_get k fl with
  | Some v => Some (mkEntry v [])
  | None => dict_get k (entries s)
  end.
Proof.
  intros Hnd Hfl Hk.
  rewrite refresh_state, refresh_vars_get by done.
  by rewrite last_write_NoDup.
Qed.

Lemma refresh_payloads_witness :
  dict_get "a"
    (entries (refresh [("b", 7); ("x", 8); ("a", 9)]
                (mkStore [("a", mkEntry 1 ["edit"]); ("b", mkEntry 2 [])]
                   (Some "a")
                   (mkSettings (VBool true) (VStr "light") (VStr "Fusion")
                      []))).1) = Some (mkEntry 9 []).
Proof.
  rewrite refresh_payloads; [reflexivity|compute_done..].
Defined.

(** X21: after [refresh] on a store with unique names, the entries that no
    variable of the caller's frame names come first, in their old order;
    the refreshed entries follow, in the order of the frame's variables. *)
Theorem refresh_display_order (fl : dict obj) (s : Store) :
  NoDup (dict_keys (entries s)) →
  NoDup (dict_keys fl) →
  dict_keys (entries (refresh fl s).1) =
  filter (λ k, k ∉ dict_keys fl) (dict_keys (entries s)) ++
  filter (λ x, x ∈ dict_keys (entries s)) (dict_keys fl).
Proof.
  intros Hnd Hfl. rewrite refresh_state by done.
  by apply refresh_vars_keys.
Qed.

Lemma refresh_display_order_witness :
  dict_keys
    (entries (refresh [("c", 7); ("x", 8); ("a", 9)]
                (mkStore [("a", mkEntry 1 []); ("b", mkEntry 2 []);
                          ("c", mkEntry 3 [])]
                   (Some "b")
                   (mkSettings (VBool true) (VStr "light") (VStr "Fusion")
                      []))).1) = ["b"; "c"; "a"].
Proof.
  rewrite refresh_display_order; [reflexivity|compute_done..].
Defined.

(** ** [print_history] *)

Lemma py_index_None {A} (l : list A) (i : Z) :
  py_index l i = None ↔ (i < - Z.of_nat (length l) ∨ Z.of_nat (length l) ≤ i)%Z.
Proof.
  unfold py_index. repeat case_decide; rewrite ?lookup_ge_None; try lia.
  split; [intros _; lia|done].
Qed.

Lemma string_length_app (a b : string) :
  String.length (a +:+ b) = String.length a + String.length b.
Proof. induction a as [|c a IH]; simpl; [done|]. by rewrite IH. Qed.

Lemma dashes_length (n : nat) : String.length (dashes n) = n.
Proof.
  induction n as [|n IH]; [done|].
  cbn [dashes]. by rewrite string_length_app, IH.
Qed.

(** X22: [print_history] raises (the indexing of the store's data fails)
    exactly when the current index is outside the Python range of the
    data, from minus its length up to its length excluded; in particular
    it always raises on a store with no dataset. *)
Theorem print_history_raises_iff (s : Store) (currentIndex : Z) :
  (print_history s currentIndex = None ↔
   (currentIndex < - Z.of_nat (length (entries s)) ∨
    Z.of_nat (length (entries s)) ≤ currentIndex)%Z) ∧
  (entries s = [] → print_history s currentIndex = None).
Proof.
  assert (print_history s currentIndex = None ↔
          py_index (entries s) currentIndex = None) as Hnone.
  { unfold print_history.
    destruct (py_index (entries s) currentIndex) as [[name pgdf]|]; [|done].
    by destruct (history pgdf). }
  split.
  - by rewrite Hnone, py_index_None.
  - intros Hempty. apply Hnone, py_index_None. rewrite Hempty. simpl. lia.
Qed.

Lemma print_history_raises_iff_witness :
  print_history
    (mkStore [] None
       (mkSettings (VBool true) (VStr "light") (VStr "Fusion") [])) (-1) =
  None.
Proof.
  destruct (print_history_raises_iff
              (mkStore [] None
                 (mkSettings (VBool true) (VStr "light") (VStr "Fusion") []))
              (-1)) as [_ Hempty].
  by apply Hempty.
Defined.

(** X23: for the entry at a valid current index, [print_history] prints one
    line saying that nothing was recorded when the history is empty, and
    otherwise a header naming the entry, the recorded actions in order,
    and a closing rule of dashes exactly as long as the header. *)
Theorem print_history_lines (s : Store) (currentIndex : Z) (name : string)
    (pgdf : Entry) :
  (0 ≤ currentIndex)%Z →
  entries s !! Z.to_nat currentIndex = Some (name, pgdf) →
  (history pgdf = [] →
   print_history s currentIndex =
   Some ["No actions recorded yet for " +:+ name]) ∧
  (history pgdf ≠ [] →
   ∃ footer,
     print_history s currentIndex =
     Some (history_header name :: history pgdf ++ [footer]) ∧
     footer = dashes (20 + String.length name) ∧
     String.length footer = String.length (history_header name)).
Proof.
  intros Hi Hget. unfold print_history, py_index.
  rewrite decide_True by done. rewrite Hget.
  assert (String.length (history_header name) = 20 + String.length name)
    as Hlen.
  { unfold history_header. rewrite !string_length_app. simpl. lia. }
  split.
  - by intros ->.
  - intros Hne. destruct (history pgdf) as [|h hs] eqn:Hh; [done|].
    exists (dashes (String.length (history_header name))).
    split_and!; [done|by rewrite Hlen|by rewrite dashes_length].
Qed.

Lemma print_history_lines_witness :
  print_history
    (mkStore [("a", mkEntry 1 []); ("df", mkEntry 2 ["sort"; "filter"])]
       (Some "a")
       (mkSettings (VBool true) (VStr "light") (VStr "Fusion") [])) 1 =
  Some ["---- History (df) ----"; "sort"; "filter";
        "----------------------"].
Proof.
  destruct (print_history_lines
              (mkStore [("a", mkEntry 1 []);
                        ("df", mkEntry 2 ["sort"; "filter"])]
                 (Some "a")
                 (mkSettings (VBool true) (VStr "light") (VStr "Fusion") []))
              1 "df" (mkEntry 2 ["sort"; "filter"]))
    as [_ Hlines]; [lia|reflexivity|].
  destruct Hlines as (footer & Hrun & -> & _); [done|].
  exact Hrun.
Defined.
